(** * python_port_scanner: the port-set parser, the connect probe and the
      scan engine of [port_scanner.py], embedded in Rocq.

    The file has two parts.  Part I translates the source functions
    [parse_ports_input], [scan_port] and [run_scan] together with the
    Python built-ins they call.  Part II states and proves the properties
    of these functions. *)

From Stdlib Require Import ZArith QArith_base Ascii String DecimalString.
From stdpp Require Import gmap strings list sorting.

Local Open Scope Z_scope.

(* ===================================================================== *)
(** * Part I.  The embedding                                              *)
(* ===================================================================== *)

(** ** Python [str] built-ins

    A Python string is modelled as a [string] whose characters are the
    code points below 256.  The character classes below are CPython's,
    restricted to that range. *)

Definition code (c : ascii) : Z := Z.of_N (N_of_ascii c).

(** [str.isspace] on one code point: the characters [str.strip()]
    removes (TAB..CR, FS..US, SPACE, NEL, NBSP). *)
Definition py_isspace (c : ascii) : bool :=
  let n := code c in
  ((9 <=? n) && (n <=? 13)) || ((28 <=? n) && (n <=? 31))
  || (n =? 32) || (n =? 133) || (n =? 160).

(** The blanks [int()] skips around a literal: C [isspace] on ASCII, and
    the non-ASCII spaces, which [int()] first rewrites to a blank. *)
Definition int_isspace (c : ascii) : bool :=
  let n := code c in
  ((9 <=? n) && (n <=? 13)) || (n =? 32) || (n =? 133) || (n =? 160).

Definition digit_value (c : ascii) : option Z :=
  let n := code c in
  if (48 <=? n) && (n <=? 57) then Some (n - 48) else None.

Fixpoint str_lstrip (s : string) : string :=
  match s with
  | String c r => if py_isspace c then str_lstrip r else s
  | EmptyString => EmptyString
  end.

Fixpoint str_rstrip (s : string) : string :=
  match s with
  | String c r =>
      match str_rstrip r with
      | EmptyString => if py_isspace c then EmptyString else String c EmptyString
      | r' => String c r'
      end
  | EmptyString => EmptyString
  end.

(** [s.strip()] *)
Definition str_strip (s : string) : string := str_rstrip (str_lstrip s).

(** [sep in s] for a one-character [sep]. *)
Fixpoint str_contains (sep : ascii) (s : string) : bool :=
  match s with
  | String c r => if decide (c = sep) then true else str_contains sep r
  | EmptyString => false
  end.

(** [s.split(sep)] for a one-character [sep]: every occurrence splits, and
    the result has one more piece than [s] has separators. *)
Fixpoint str_split (sep : ascii) (s : string) : list string :=
  match s with
  | String c r =>
      if decide (c = sep) then EmptyString :: str_split sep r
      else match str_split sep r with
           | piece :: pieces => String c piece :: pieces
           | [] => [String c EmptyString]
           end
  | EmptyString => [EmptyString]
  end.

(** [s.split(sep, 1)]: at most one split, at the first occurrence. *)
Fixpoint str_split1 (sep : ascii) (s : string) : list string :=
  match s with
  | String c r =>
      if decide (c = sep) then [EmptyString; r]
      else match str_split1 sep r with
           | piece :: pieces => String c piece :: pieces
           | [] => [String c EmptyString]
           end
  | EmptyString => [EmptyString]
  end.

(** ** Python [int(str)]

    Base-ten literal: blanks, an optional sign, decimal digits in which
    single underscores may separate digits, blanks.  [None] stands for
    [ValueError]. *)

Fixpoint int_lstrip (s : string) : string :=
  match s with
  | String c r => if int_isspace c then int_lstrip r else s
  | EmptyString => EmptyString
  end.

Fixpoint int_all_space (s : string) : bool :=
  match s with
  | String c r => int_isspace c && int_all_space r
  | EmptyString => true
  end.

(** Scans the digit run.  [acc] is the value read so far, [n] the number
    of digits, [prev_us] tells whether the previous character was an
    underscore.  Returns the value, the digit count and the unread rest. *)
Fixpoint int_digits (acc : Z) (n : nat) (prev_us : bool) (s : string)
  : option (Z * nat * string) :=
  match s with
  | String c r =>
      match digit_value c with
      | Some d => int_digits (10 * acc + d) (S n) false r
      | None =>
          if decide (c = "_"%char)
          then (if prev_us then None else int_digits acc n true r)
          else (if prev_us then None else Some (acc, n, s))
      end
  | EmptyString => if prev_us then None else Some (acc, n, EmptyString)
  end.

(** CPython's default [sys.get_int_max_str_digits()]. *)
Definition max_str_digits : nat := 4300.

(** The digits of a literal: no leading underscore, at least one digit,
    no more digits than the interpreter converts, blanks only after. *)
Definition int_unsigned (s : string) : option Z :=
  match s with
  | String c _ =>
      if decide (c = "_"%char) then None
      else
        match int_digits 0 0 false s with
        | Some (v, n, rest) =>
            if decide (n = 0%nat) then None
            else if decide (max_str_digits < n)%nat then None
            else if int_all_space rest then Some v else None
        | None => None
        end
  | EmptyString => None
  end.

Definition py_int (s : string) : option Z :=
  match int_lstrip s with
  | String c r =>
      if decide (c = "+"%char) then int_unsigned r
      else if decide (c = "-"%char) then Z.opp <$> int_unsigned r
      else int_unsigned (String c r)
  | EmptyString => None
  end.

(** ** Port Set Builder: [parse_ports_input] *)

(** [sorted(ports)] on a set of integers. *)
Definition sorted (ports : gset Z) : list Z := merge_sort Z.le (elements ports).

(** [for p in range(a, b + 1): ports.add(p)] *)
Definition add_range (a b : Z) (ports : gset Z) : gset Z :=
  foldl (fun acc p => {[p]} ∪ acc) ports (seqZ a (b + 1 - a)).

(** One iteration of the [for part in spec.split(",")] loop.  [None] is
    the loop's [return None]; [Some ports'] continues with the updated
    set.  Both [try] bodies end in [except Exception: return None], so a
    failed [int()] and a failed unpacking give [None] as well. *)
Definition parse_part (ports : gset Z) (part0 : string) : option (gset Z) :=
  let part := str_strip part0 in
  if decide (part = EmptyString) then Some ports
  else if str_contains "-" part then
    match str_split1 "-" part with
    | [a_str; b_str] =>
        match py_int a_str with
        | Some a =>
            match py_int b_str with
            | Some b =>
                if (a <? 1) || (b >? 65535) || (a >? b) then None
                else Some (add_range a b ports)
            | None => None
            end
        | None => None
        end
    | _ => None
    end
  else
    match py_int part with
    | Some p =>
        if (1 <=? p) && (p <=? 65535) then Some ({[p]} ∪ ports) else None
    | None => None
    end.

Fixpoint parse_parts (ports : gset Z) (parts : list string) : option (gset Z) :=
  match parts with
  | part :: rest =>
      match parse_part ports part with
      | Some ports' => parse_parts ports' rest
      | None => None
      end
  | [] => Some ports
  end.

(** [parse_ports_input(spec)]; [None] is Python's [None]. *)
Definition parse_ports_input (spec : string) : option (list Z) :=
  if decide (spec = EmptyString) then None
  else sorted <$> parse_parts ∅ (str_split "," spec).

(** ** Exceptions

    [py_exception] lists instances of [Exception]: what socket calls,
    dictionary look-ups and file writes raise.  [KeyboardInterrupt] derives
    from [BaseException] only, so no [except Exception] clause catches it;
    it is kept apart in [py_raise]. *)

Inductive py_exception : Type :=
| OSError (errno : Z)
| gaierror
| ValueError
| TypeError
| OverflowError
| KeyError
| OtherException (name : string).

Inductive py_raise : Type :=
| ExceptionRaised (e : py_exception)
| KeyboardInterrupt.

(** A computation that returns a value or raises an [Exception]. *)
Inductive result (A : Type) : Type :=
| Ok (a : A)
| Raise (e : py_exception).
Arguments Ok {A} a.
Arguments Raise {A} e.

#[global] Instance result_ret : MRet result := fun A a => Ok a.
#[global] Instance result_bind : MBind result := fun A B k m =>
  match m with
  | Ok a => k a
  | Raise e => Raise e
  end.

(** [try: body  except Exception: handler] *)
Definition try_except {A} (body : result A) (handler : py_exception -> result A)
  : result A :=
  match body with
  | Ok a => Ok a
  | Raise e => handler e
  end.

(** ** Connect Probe: [scan_port]

    What the operating system answers to the three socket calls of one
    probe.  [sock_connect_ex] returns the error indicator of the
    connection attempt (0 on success, an errno such as ECONNREFUSED or
    EAGAIN on failure) or raises. *)
Record socket_api : Type := {
  socket_new : result unit;
  sock_settimeout : Q -> result unit;
  sock_connect_ex : string -> Z -> result Z
}.

(** The [with] block closes the socket on every exit and raises nothing
    of its own. *)
Definition scan_port (net : socket_api) (host_ip : string) (port : Z)
    (timeout : Q) : result (Z * bool) :=
  try_except
    (_ ← socket_new net;
     _ ← sock_settimeout net timeout;
     r ← sock_connect_ex net host_ip port;
     Ok (port, r =? 0))
    (fun _ => Ok (port, false)).

(** ** Scan Engine: [run_scan] *)

(** One entry of [results]: a dict with five fixed keys. *)
Record row : Type := {
  row_host : string;
  row_ip : string;
  row_port : Z;
  row_status : string;
  row_scanned_at : string
}.

Inductive file_format : Type := JSON | CSV.

(** The lines [run_scan] prints, by the statement that prints them. *)
Inductive message : Type :=
| MsgNoPorts
| MsgStarting (target_ip : string) (total threads : Z) (timeout : Q)
| MsgPortOpen (port : Z)
| MsgInterrupted
| MsgScanComplete
| MsgOpenPorts (open_ports : list Z)
| MsgElapsed
| MsgSaved (path : string) (fmt : file_format)
| MsgWriteFailed (e : py_exception).

(** What the main thread does to the outside, in program order.
    [FileWrite] is a file written to its end and closed; [FileCut] is a
    file that was being opened or written when an interrupt came: it is
    left as it was at that moment, and what it holds is not determined. *)
Inductive event : Type :=
| Printed (m : message)
| PoolCreate (max_workers : Z)
| Submit (port : Z)
| PoolShutdown
| FileWrite (path : string) (fmt : file_format) (rows : list row)
| FileCut (path : string).

(** A future of the executor: its identity and what [future.result()]
    gives once the task has run. *)
Record future : Type := {
  fut_id : nat;
  fut_value : result (Z * bool)
}.

(** Where in a turn of the collection loop a [KeyboardInterrupt]
    arrives: before the turn has printed or appended anything (in the
    wait of [as_completed], in the lookup, in [future.result()]); for an
    open port, between [print] and [open_ports.append], or between
    [open_ports.append] and [results.append].  On a closed port the body
    does nothing before [results.append], and the three points are one. *)
Inductive body_point : Type :=
| BeforeOutcome
| AfterPrint
| AfterAppend.

(** Where a [KeyboardInterrupt] reaches the main thread once the pool
    exists:
    - in the dict comprehension of submissions, after [k] calls of
      [ex.submit] (inside [with], before [try]);
    - inside the [try], in the turn that follows [k] whole turns of the
      loop, at the point [pt] of that turn (after the last turn: in the
      wait that ends the loop);
    - after the loop, outside the [try], when [j] of the events that
      follow the shutdown of the pool have happened: the three lines of
      the report, then the events of the saving block;
    - after the report, inside [with open(...)], the file opened and not
      yet written to its end.
    An interrupt before the [with] statement, when no pool exists yet,
    is not described: it leaves [run_scan] before the scan has begun. *)
Inductive interrupt : Type :=
| DuringSubmit (k : nat)
| DuringCollect (k : nat) (pt : body_point)
| AfterCollect (j : nat)
| DuringWrite.

(** Everything outside the program that a run depends on. *)
Record world : Type := {
  w_net : nat -> socket_api;      (* the network, for the i-th submitted probe *)
  w_arrival : list nat;           (* the choices of [as_completed] *)
  w_interrupt : option interrupt;
  w_clock : nat -> string;        (* [datetime.now().isoformat()], k-th reading *)
  w_splitext : string -> string * string;   (* [os.path.splitext] *)
  w_write : string -> option py_exception   (* the fault of writing a file, if any *)
}.

(** [as_completed(fs)] yields every future once, in an order the program
    does not control.  Each entry of [sched] picks the next future among
    those not yet yielded; when [sched] runs out the rest comes in the
    order of submission. *)
Fixpoint as_completed {A} (sched : list nat) (fs : list A) : list A :=
  match sched with
  | k :: sched' =>
      let i := (k mod length fs)%nat in
      match fs !! i with
      | Some f => f :: as_completed sched' (delete i fs)
      | None => fs
      end
  | [] => fs
  end.

(** [ex.submit(scan_port, target_ip, p, timeout)] for the [i]-th port. *)
Definition ex_submit (w : world) (target_ip : string) (timeout : Q)
    (i : nat) (p : Z) : future :=
  {| fut_id := i; fut_value := scan_port (w_net w i) target_ip p timeout |}.

(** [{ex.submit(scan_port, target_ip, p, timeout): p for p in ports}]:
    the futures in submission order and the dict from future to port. *)
Definition submit_all (w : world) (target_ip : string) (timeout : Q)
    (ports : list Z) : list future * gmap nat Z :=
  let futures := imap (ex_submit w target_ip timeout) ports in
  (futures, list_to_map (zip (fut_id <$> futures) ports)).

(** The accumulators of the collection loop and the output so far. *)
Record scan_state : Type := {
  open_ports : list Z;
  results : list row;
  out : list event
}.

(** The body of [for future in as_completed(future_map)]. *)
Definition collect_step (w : world) (target_ip : string)
    (future_map : gmap nat Z) (st : scan_state) (f : future)
  : py_exception + scan_state :=
  match future_map !! fut_id f with
  | None => inl KeyError
  | Some p =>
      let '(port, status) :=
        match fut_value f with
        | Ok (port, is_open) => (port, if is_open then "open" else "closed")
        | Raise _ => (p, "closed")
        end in
      let st1 :=
        if decide (status = "open")
        then {| open_ports := open_ports st ++ [port];
                results := results st;
                out := out st ++ [Printed (MsgPortOpen port)] |}
        else st in
      inr {| open_ports := open_ports st1;
             results := results st1 ++
               [ {| row_host := target_ip; row_ip := target_ip;
                    row_port := port; row_status := status;
                    row_scanned_at := w_clock w (length (results st1)) |} ];
             out := out st1 |}
  end.

(** The part of the loop body that is done when an interrupt arrives at
    [pt]: nothing at [BeforeOutcome]; on an open port the [print] at
    [AfterPrint], the [print] and [open_ports.append] at [AfterAppend];
    [results.append] never. *)
Definition collect_cut (future_map : gmap nat Z) (st : scan_state)
    (f : future) (pt : body_point) : py_exception + scan_state :=
  match pt with
  | BeforeOutcome => inr st
  | _ =>
      match future_map !! fut_id f with
      | None => inl KeyError
      | Some p =>
          let '(port, status) :=
            match fut_value f with
            | Ok (port, is_open) => (port, if is_open then "open" else "closed")
            | Raise _ => (p, "closed")
            end in
          if decide (status = "open")
          then inr {| open_ports :=
                        match pt with
                        | AfterAppend => open_ports st ++ [port]
                        | _ => open_ports st
                        end;
                      results := results st;
                      out := out st ++ [Printed (MsgPortOpen port)] |}
          else inr st
      end
  end.

(** The whole loop: the state when it ends, and the exception that ended
    it if one did. *)
Fixpoint collect (w : world) (target_ip : string) (future_map : gmap nat Z)
    (st : scan_state) (arrivals : list future)
  : scan_state * option py_exception :=
  match arrivals with
  | f :: rest =>
      match collect_step w target_ip future_map st f with
      | inr st' => collect w target_ip future_map st' rest
      | inl e => (st, Some e)
      end
  | [] => (st, None)
  end.

(** [s.lower()] and [s.lstrip('.')] on code points below 256. *)
Definition chr_lower (c : ascii) : ascii :=
  let n := code c in
  if ((65 <=? n) && (n <=? 90))
     || ((192 <=? n) && (n <=? 222) && negb (n =? 215))
  then ascii_of_N (N_of_ascii c + 32) else c.

Fixpoint str_lower (s : string) : string :=
  match s with
  | String c r => String (chr_lower c) (str_lower r)
  | EmptyString => EmptyString
  end.

Fixpoint str_lstrip_char (x : ascii) (s : string) : string :=
  match s with
  | String c r => if decide (c = x) then str_lstrip_char x r else s
  | EmptyString => EmptyString
  end.

(** The [if save_path:] block: the events of saving [rows]. *)
Definition save_results (w : world) (save_path : option string)
    (rows : list row) : list event :=
  match save_path with
  | None => []
  | Some path =>
      if decide (path = EmptyString) then []
      else
        let ext := str_lower (str_lstrip_char "." (w_splitext w path).2) in
        let fmt := if decide (ext = "json") then JSON else CSV in
        match w_write w path with
        | Some e => [Printed (MsgWriteFailed e)]
        | None => [FileWrite path fmt rows; Printed (MsgSaved path fmt)]
        end
  end.

(** The saving block cut inside [with open(...)]: the file is left
    unfinished, and nothing is printed. *)
Definition save_cut (save_path : option string) : list event :=
  match save_path with
  | None => []
  | Some path => if decide (path = EmptyString) then [] else [FileCut path]
  end.

(** How a call of [run_scan] ends, the list [results] at that moment and
    the events of the call. *)
Record run_result : Type := {
  rr_return : py_raise + list Z;
  rr_results : list row;
  rr_trace : list event
}.

Definition max_workers (threads : Z) (ports : list Z) : Z :=
  Z.min (Z.max 1 threads) (Z.of_nat (length ports)).

Definition run_scan (w : world) (target_ip : string) (ports : list Z)
    (threads : Z) (timeout : Q) (save_path : option string) : run_result :=
  if decide (ports = []) then
    {| rr_return := inr []; rr_results := [];
       rr_trace := [Printed MsgNoPorts] |}
  else
    let total := Z.of_nat (length ports) in
    let start :=
      [Printed (MsgStarting target_ip total threads timeout);
       PoolCreate (max_workers threads ports)] in
    match w_interrupt w with
    | Some (DuringSubmit k) =>
        (* raised inside [with], outside [try]: the pool is shut down and
           the interrupt leaves [run_scan] *)
        {| rr_return := inl KeyboardInterrupt; rr_results := [];
           rr_trace := start ++ (Submit <$> take k ports) ++ [PoolShutdown] |}
    | during =>
        let '(futures, future_map) := submit_all w target_ip timeout ports in
        let arrivals := as_completed (w_arrival w) futures in
        let st0 :=
          {| open_ports := []; results := [];
             out := start ++ (Submit <$> ports) |} in
        (* an [Exception] in the loop body is not caught *)
        let raised (st : scan_state) (e : py_exception) :=
          {| rr_return := inl (ExceptionRaised e); rr_results := results st;
             rr_trace := out st ++ [PoolShutdown] |} in
        (* [except KeyboardInterrupt: ... return open_ports] *)
        let caught (st : scan_state) :=
          {| rr_return := inr (open_ports st); rr_results := results st;
             rr_trace := out st ++ [Printed MsgInterrupted; PoolShutdown] |} in
        match during with
        | Some (DuringCollect k pt) =>
            match collect w target_ip future_map st0 (take k arrivals) with
            | (st, Some e) => raised st e
            | (st, None) =>
                match arrivals !! k with
                | Some f =>
                    match collect_cut future_map st f pt with
                    | inr st' => caught st'
                    | inl e => raised st e
                    end
                | None => caught st
                end
            end
        | _ =>
            match collect w target_ip future_map st0 arrivals with
            | (st, Some e) => raised st e
            | (st, None) =>
                let report :=
                  [Printed MsgScanComplete;
                   Printed (MsgOpenPorts (open_ports st)); Printed MsgElapsed] in
                match during with
                | Some (AfterCollect j) =>
                    (* outside the [try]: the interrupt leaves [run_scan] *)
                    {| rr_return := inl KeyboardInterrupt;
                       rr_results := results st;
                       rr_trace :=
                         out st ++ [PoolShutdown] ++
                         take j (report ++
                                 save_results w save_path (results st)) |}
                | Some DuringWrite =>
                    (* [except Exception] does not catch the interrupt *)
                    {| rr_return := inl KeyboardInterrupt;
                       rr_results := results st;
                       rr_trace :=
                         out st ++ [PoolShutdown] ++ report ++
                         save_cut save_path |}
                | _ =>
                    {| rr_return := inr (open_ports st); rr_results := results st;
                       rr_trace :=
                         out st ++
                         [PoolShutdown; Printed MsgScanComplete;
                          Printed (MsgOpenPorts (open_ports st)); Printed MsgElapsed] ++
                         save_results w save_path (results st) |}
                end
            end
        end
    end.

(** ** The worker pool

    [ThreadPoolExecutor(max_workers)] as its documentation describes it:
    submitted tasks wait in a queue, at most [max_workers] worker threads
    take them from the queue in order, each thread runs one task at a
    time, and tasks finish in any order.  Tasks are named by their
    submission index. *)
Record pool : Type := {
  unsubmitted : list nat;
  queued : list nat;
  in_flight : list nat;
  completed : list nat
}.

Inductive pool_step (bound : Z) : pool -> pool -> Prop :=
| pool_submit i todo q r d :
    pool_step bound
      {| unsubmitted := i :: todo; queued := q; in_flight := r; completed := d |}
      {| unsubmitted := todo; queued := q ++ [i]; in_flight := r; completed := d |}
| pool_start i todo q r d :
    Z.of_nat (length r) < bound ->
    pool_step bound
      {| unsubmitted := todo; queued := i :: q; in_flight := r; completed := d |}
      {| unsubmitted := todo; queued := q; in_flight := r ++ [i]; completed := d |}
| pool_finish i todo q r1 r2 d :
    pool_step bound
      {| unsubmitted := todo; queued := q; in_flight := r1 ++ i :: r2; completed := d |}
      {| unsubmitted := todo; queued := q; in_flight := r1 ++ r2; completed := d ++ [i] |}.

(** The pool [run_scan] creates, before the first submission. *)
Definition pool_init (ports : list Z) : pool :=
  {| unsubmitted := seq 0 (length ports); queued := []; in_flight := [];
     completed := [] |}.

(** ** Vocabulary of the specification *)

(** The ports whose outcome is OPEN in an outcome sequence, in the order
    of the sequence. *)
Definition open_of (rows : list row) : list Z :=
  row_port <$> filter (fun r => row_status r = "open") rows.

(** The sorted set of ports whose outcome is OPEN. *)
Definition sorted_open (rows : list row) : list Z :=
  sorted (list_to_set (open_of rows)).

Definition in_port_range (p : Z) : bool := (1 <=? p) && (p <=? 65535).

(** Every way of reading a token as [a_str-b_str]. *)
Fixpoint hyphen_splits (t : string) : list (string * string) :=
  match t with
  | String c r =>
      (if decide (c = "-"%char) then [(EmptyString, r)] else []) ++
      (prod_map (String c) id <$> hyphen_splits r)
  | EmptyString => []
  end.

(** A token is a single port in range ... *)
Definition token_single_ok (t : string) : bool :=
  match py_int t with
  | Some p => in_port_range p
  | None => false
  end.

(** ... or an inclusive range [a-b] with both ends in range and [a <= b]. *)
Definition token_range_ok (ab : string * string) : bool :=
  match py_int ab.1, py_int ab.2 with
  | Some a, Some b => in_port_range a && in_port_range b && (a <=? b)
  | _, _ => false
  end.

(** A token is acceptable when one of its readings is.  It fails to be in
    three ways: no reading is made of integers (malformed), a value lies
    outside 1..65535 (out of range), or the ends of a range are inverted. *)
Definition token_ok (t : string) : bool :=
  token_single_ok t || existsb token_range_ok (hyphen_splits t).

(** The tokens of a specification: the comma-separated pieces, trimmed,
    without the empty ones. *)
Definition tokens (spec : string) : list string :=
  filter (fun t => t <> EmptyString) (str_strip <$> str_split "," spec).

(** A valid specification: not empty, and every token acceptable. *)
Definition valid_spec (spec : string) : bool :=
  bool_decide (spec <> EmptyString) && forallb token_ok (tokens spec).

(** A probe finds its port open when all three socket calls succeed and
    [connect_ex] reports 0. *)
Definition connection_succeeds (net : socket_api) (host_ip : string)
    (port : Z) (timeout : Q) : Prop :=
  socket_new net = Ok () /\ sock_settimeout net timeout = Ok () /\
  sock_connect_ex net host_ip port = Ok 0.

(** ** Auxiliary definitions

    The loops of the source restated in the form the proofs use. *)

Definition all_in_range (X : gset Z) : Prop :=
  forall p, p ∈ X -> 1 <= p <= 65535.

(** The loop body of [parse_ports_input] on a trimmed, non-empty token. *)
Definition token_step (ports : gset Z) (t : string) : option (gset Z) :=
  if str_contains "-" t then
    match str_split1 "-" t with
    | [a_str; b_str] =>
        match py_int a_str with
        | Some a =>
            match py_int b_str with
            | Some b =>
                if (a <? 1) || (b >? 65535) || (a >? b) then None
                else Some (add_range a b ports)
            | None => None
            end
        | None => None
        end
    | _ => None
    end
  else
    match py_int t with
    | Some p =>
        if (1 <=? p) && (p <=? 65535) then Some ({[p]} ∪ ports) else None
    | None => None
    end.

Fixpoint parse_tokens (ports : gset Z) (ts : list string) : option (gset Z) :=
  match ts with
  | t :: rest =>
      match token_step ports t with
      | Some ports' => parse_tokens ports' rest
      | None => None
      end
  | [] => Some ports
  end.

(** What the collection loop makes of one future: the port it records,
    whether it records the port as open, and the row it appends as the
    [j]-th outcome. *)
Definition port_of (future_map : gmap nat Z) (f : future) : Z :=
  match fut_value f with
  | Ok (port, _) => port
  | Raise _ => default 0 (future_map !! fut_id f)
  end.

Definition fut_open (f : future) : bool :=
  match fut_value f with
  | Ok (_, is_open) => is_open
  | Raise _ => false
  end.

Definition outcome_row (w : world) (target_ip : string)
    (future_map : gmap nat Z) (j : nat) (f : future) : row :=
  {| row_host := target_ip; row_ip := target_ip;
     row_port := port_of future_map f;
     row_status := if fut_open f then "open" else "closed";
     row_scanned_at := w_clock w j |}.

(** What the turn an interrupt cut at [pt] had appended to [open_ports],
    and what it had printed; [f] is the future of that turn, if there
    was a turn left. *)
Definition cut_open (future_map : gmap nat Z) (pt : body_point)
    (f : option future) : list Z :=
  match pt, f with
  | AfterAppend, Some f => if fut_open f then [port_of future_map f] else []
  | _, _ => []
  end.

Definition cut_printed (future_map : gmap nat Z) (pt : body_point)
    (f : option future) : list event :=
  match pt, f with
  | BeforeOutcome, _ | _, None => []
  | _, Some f =>
      if fut_open f then [Printed (MsgPortOpen (port_of future_map f))] else []
  end.

(** The number of turns whose port, if open, has been appended to
    [open_ports], and has been printed, when the interrupt arrives at
    [pt] after [k] whole turns. *)
Definition turns_appended (k : nat) (pt : body_point) : nat :=
  match pt with AfterAppend => S k | _ => k end.

Definition turns_printed (k : nat) (pt : body_point) : nat :=
  match pt with BeforeOutcome => k | _ => S k end.

(** An event that touches the output file. *)
Definition file_event (ev : event) : Prop :=
  match ev with
  | FileWrite _ _ _ | FileCut _ => True
  | _ => False
  end.

(** An interrupt that arrives before the saving block is reached: during
    submission or collection, or after the loop with at most the three
    lines of the report printed. *)
Definition before_saving (i : interrupt) : Prop :=
  match i with
  | DuringSubmit _ | DuringCollect _ _ => True
  | AfterCollect j => (j <= 3)%nat
  | DuringWrite => False
  end.

(** The futures as the loop meets them. *)
Definition arrivals_of (w : world) (target_ip : string) (timeout : Q)
    (ports : list Z) : list future :=
  as_completed (w_arrival w) (submit_all w target_ip timeout ports).1.

(** Replacing one oracle of a world. *)
Definition with_arrival (w : world) (sched : list nat) : world :=
  {| w_net := w_net w; w_arrival := sched; w_interrupt := w_interrupt w;
     w_clock := w_clock w; w_splitext := w_splitext w; w_write := w_write w |}.

Definition with_interrupt (w : world) (i : option interrupt) : world :=
  {| w_net := w_net w; w_arrival := w_arrival w; w_interrupt := i;
     w_clock := w_clock w; w_splitext := w_splitext w; w_write := w_write w |}.

Definition with_write (w : world) (wr : string -> option py_exception) : world :=
  {| w_net := w_net w; w_arrival := w_arrival w; w_interrupt := w_interrupt w;
     w_clock := w_clock w; w_splitext := w_splitext w; w_write := wr |}.

(** ** Example worlds *)

(** [os.path.splitext] as [posixpath] defines it: the extension starts at
    the last dot of the file name, leading dots of the name apart. *)
Fixpoint rsplit_at (x : ascii) (s : string) : option (string * string) :=
  match s with
  | String c r =>
      match rsplit_at x r with
      | Some (before, after) => Some (String c before, after)
      | None => if decide (c = x) then Some (EmptyString, r) else None
      end
  | EmptyString => None
  end.

Definition posix_splitext (p : string) : string * string :=
  let name :=
    match rsplit_at "/" p with
    | Some (_, name) => name
    | None => p
    end in
  match rsplit_at "." (str_lstrip_char "." name) with
  | Some (_, e) =>
      (String.substring 0 (String.length p - String.length e - 1) p,
       String "." e)
  | None => (p, EmptyString)
  end.

(** Worlds for examples: [all_open] accepts every connection, [refusing]
    answers ECONNREFUSED; in [demo_world] completions arrive as [sched]
    says, the interrupt is [i], and writing works. *)
Definition all_open : socket_api :=
  {| socket_new := Ok (); sock_settimeout := fun _ => Ok ();
     sock_connect_ex := fun _ _ => Ok 0 |}.

Definition refusing : socket_api :=
  {| socket_new := Ok (); sock_settimeout := fun _ => Ok ();
     sock_connect_ex := fun _ _ => Ok 111 |}.

(** The network of the example scans: the probes submitted second and
    fourth are accepted, the others refused. *)
Definition demo_net (i : nat) : socket_api :=
  if Nat.odd i then all_open else refusing.

Definition demo_world (net : nat -> socket_api) (sched : list nat)
    (i : option interrupt) : world :=
  {| w_net := net; w_arrival := sched; w_interrupt := i;
     w_clock := fun _ => "2025-10-03T12:00:00";
     w_splitext := posix_splitext;
     w_write := fun _ => None |}.

(** ** What a specification denotes *)

(** The ports a token stands for: the port it spells, or the ports of the
    range [a-b] it spells, ports starting at 1. *)
Definition token_covers (t : string) (p : Z) : Prop :=
  1 <= p /\
  (py_int t = Some p \/
   exists (a_str b_str : string) (a b : Z),
     (a_str, b_str) ∈ hyphen_splits t /\
     py_int a_str = Some a /\ py_int b_str = Some b /\
     1 <= a /\ a <= p <= b).

(** ** The console

    The interactive functions read lines with [input] and write with
    [print].  A run is given the lines still to be read; it yields a
    value or an exit, the lines left unread, and what it did. *)

Inductive ui_event : Type :=
| Said (text : string)          (* [print(text)] *)
| Asked (prompt : string)       (* [input(prompt)] *)
| System (command : string)     (* [os.system(command)] *)
| Scanned (target_ip : string) (ports : list Z) (threads : Z) (timeout : Q)
          (save_path : option string) (r : run_result).   (* [run_scan(...)] *)

(** How an interactive function ends when it does not return: a raised
    exception, [sys.exit(status)], or, for the loops that run on fuel,
    no fuel left. *)
Inductive ui_exit : Type :=
| UiRaised (e : py_raise)
| SystemExit (status : Z)
| OutOfFuel.

Record ui_result (A : Type) : Type := {
  ui_value : ui_exit + A;
  ui_rest : list string;
  ui_log : list ui_event
}.
Arguments ui_value {A} _.
Arguments ui_rest {A} _.
Arguments ui_log {A} _.

Definition UI (A : Type) : Type := list string -> ui_result A.

Definition ui_ret {A} (a : A) : UI A := fun inputs =>
  {| ui_value := inr a; ui_rest := inputs; ui_log := [] |}.

Definition ui_fail {A} (e : ui_exit) : UI A := fun inputs =>
  {| ui_value := inl e; ui_rest := inputs; ui_log := [] |}.

Definition ui_bind {A B} (m : UI A) (k : A -> UI B) : UI B := fun inputs =>
  let r := m inputs in
  match ui_value r with
  | inr a =>
      let r' := k a (ui_rest r) in
      {| ui_value := ui_value r'; ui_rest := ui_rest r';
         ui_log := ui_log r ++ ui_log r' |}
  | inl e => {| ui_value := inl e; ui_rest := ui_rest r; ui_log := ui_log r |}
  end.

Notation "x <~ m ;; k" := (ui_bind m (fun x => k))
  (at level 100, m at next level, right associativity).
Notation "m ;;; k" := (ui_bind m (fun _ => k))
  (at level 100, right associativity).

Definition ui_emit (events : list ui_event) : UI unit := fun inputs =>
  {| ui_value := inr tt; ui_rest := inputs; ui_log := events |}.

Definition ui_print (text : string) : UI unit := ui_emit [Said text].

Definition EOFError : py_exception := OtherException "EOFError".

(** [input(prompt)]: the next line, or [EOFError] when none is left. *)
Definition ui_input (prompt : string) : UI string := fun inputs =>
  match inputs with
  | line :: rest =>
      {| ui_value := inr line; ui_rest := rest; ui_log := [Asked prompt] |}
  | [] =>
      {| ui_value := inl (UiRaised (ExceptionRaised EOFError)); ui_rest := [];
         ui_log := [Asked prompt] |}
  end.

(** [try: body  except Exception: handler] around console code. *)
Definition ui_try {A} (body handler : UI A) : UI A := fun inputs =>
  let r := body inputs in
  match ui_value r with
  | inl (UiRaised (ExceptionRaised _)) =>
      let r' := handler (ui_rest r) in
      {| ui_value := ui_value r'; ui_rest := ui_rest r';
         ui_log := ui_log r ++ ui_log r' |}
  | _ => r
  end.

(** A result with [events] put before its log. *)
Definition ui_after {A} (events : list ui_event) (r : ui_result A)
  : ui_result A :=
  {| ui_value := ui_value r; ui_rest := ui_rest r;
     ui_log := events ++ ui_log r |}.

(** What a loop makes of [input(...)] raising [EOFError]: the exception
    leaves the function after [events]. *)
Definition eof_after {A} (events : list ui_event) : ui_result A :=
  {| ui_value := inl (UiRaised (ExceptionRaised EOFError)); ui_rest := [];
     ui_log := events |}.

Definition nl : string := String "010"%char EmptyString.

(** ** More [str] built-ins *)

(** [s.replace(x, y)] for one-character [x] and [y]. *)
Fixpoint str_replace_char (x y : ascii) (s : string) : string :=
  match s with
  | String c r => String (if decide (c = x) then y else c) (str_replace_char x y r)
  | EmptyString => EmptyString
  end.

(** [c * n] for a one-character string [c]. *)
Fixpoint str_repeat (c : ascii) (n : nat) : string :=
  match n with
  | S n' => String c (str_repeat c n')
  | O => EmptyString
  end.

(** [s.center(width)]: blanks on both sides, the odd blank on the left
    when [width] is odd and on the right when it is even. *)
Definition str_center (s : string) (width : nat) : string :=
  let len := String.length s in
  if (width <=? len)%nat then s
  else
    let marg := (width - len)%nat in
    let left := (marg / 2 + (if Nat.odd marg && Nat.odd width then 1 else 0))%nat in
    str_repeat " " left +:+ s +:+ str_repeat " " (marg - left).

(** [sep.join(parts)] *)
Fixpoint str_join (sep : string) (parts : list string) : string :=
  match parts with
  | [] => EmptyString
  | [part] => part
  | part :: rest => part +:+ sep +:+ str_join sep rest
  end.

(** [str(n)] for an integer. *)
Definition py_str (n : Z) : string := NilZero.string_of_int (Z.to_int n).

(** ** Module constants *)

Definition COMMON_PORTS : list Z :=
  [21; 22; 23; 25; 53; 67; 68; 69; 80; 110; 111; 123;
   135; 139; 143; 161; 389; 443; 445; 465; 587; 631;
   993; 995; 3306; 3389; 5900; 6379; 8080].

Definition CONTACT_INFO : gmap string string :=
  list_to_map
    [("name", "ata bahari"); ("email", "iatabahari@gmail.com");
     ("github", "https://github.com/atabahri"); ("telegram", "atabahari");
     ("instagram", "atabahari"); ("x", "atabahari")].

(** [CONTACT_INFO.get(key)] inside an f-string: a missing key prints as
    [None]. *)
Definition contact (key : string) : string :=
  default "None" (CONTACT_INFO !! key).

Definition version : string := "v1.1.1".
Definition build_date : string := "2025-10-03".

(** ** The platform

    What the interactive layer takes from outside the program: the name
    of the operating system, pyfiglet when it is installed (font and
    text to the rendered banner), [float()] on text, [os.path.splitext],
    the stamp [datetime.now().strftime("%Y%m%d_%H%M%S")], the resolver
    [socket.gethostbyname], and the world of each scan.  [float()] is a
    parameter because turning decimal text into a double is outside the
    embedding; [Q] stands for its value as it does for the timeout of
    [run_scan].  The stamp and the world are named by the number of
    input lines still unread when they are used: a later use has fewer
    lines left, so every use has a reading of its own. *)
Record platform : Type := {
  pf_os_name : string;
  pf_figlet : option (string -> string -> result string);
  pf_float : string -> option Q;
  pf_splitext : string -> string * string;
  pf_strftime : nat -> string;
  pf_gethostbyname : string -> result string;
  pf_scan_world : nat -> world
}.

(** The world of the scan started with [k] lines unread; it splits paths
    as the rest of the program does. *)
Definition pf_world (pf : platform) (k : nat) : world :=
  let w := pf_scan_world pf k in
  {| w_net := w_net w; w_arrival := w_arrival w; w_interrupt := w_interrupt w;
     w_clock := w_clock w; w_splitext := pf_splitext pf; w_write := w_write w |}.

(** ** [clear_screen] and [print_banner] *)

Definition clear_screen (pf : platform) : list ui_event :=
  [System (if decide (pf_os_name pf = "nt") then "cls" else "clear")].

Definition print_banner (pf : platform) (text font : string) : list ui_event :=
  match pf_figlet pf with
  | Some render =>
      match render font text with
      | Ok art => [Said art]
      | Raise _ => [Said text]
      end
  | None =>
      [Said (str_repeat "=" 60); Said (str_center text 60);
       Said (str_repeat "=" 60)]
  end.

(** ** [prompt_int] *)

Fixpoint prompt_int (prompt : string) (default minv maxv : option Z)
    (inputs : list string) : ui_result Z :=
  match inputs with
  | line :: rest =>
      let s := str_strip line in
      let retry (complaint : string) :=
        ui_after [Asked prompt; Said complaint]
          (prompt_int prompt default minv maxv rest) in
      let give (v : Z) :=
        {| ui_value := inr v; ui_rest := rest; ui_log := [Asked prompt] |} in
      match (if decide (s = EmptyString) then default else None) with
      | Some d => give d
      | None =>
          match py_int s with
          | Some v =>
              if match minv with Some m => v <? m | None => false end
              then retry "Value is below minimum."
              else if match maxv with Some m => v >? m | None => false end
              then retry "Value is above maximum."
              else give v
          | None => retry "Please enter a valid integer."
          end
      end
  | [] => eof_after [Asked prompt]
  end.

(** ** [choose_output_filename] *)

Definition name_prompt : string :=
  "Optional output filename (leave empty = auto-name, or type 'n' to skip saving): ".

Definition format_prompt : string :=
  "Choose output format: [1] csv (default)  [2] json : ".

(** [hostname.replace('/', '_').replace(':', '_').replace('\\', '_')] *)
Definition safe_host (hostname : string) : string :=
  str_replace_char "\" "_"
    (str_replace_char ":" "_" (str_replace_char "/" "_" hostname)).

(** [splitext] is [os.path.splitext]; [stamp] is what
    [datetime.now().strftime("%Y%m%d_%H%M%S")] gives when the name is
    generated. *)
Fixpoint choose_output_filename (splitext : string -> string * string)
    (stamp : string) (hostname default_format : string)
    (inputs : list string) : ui_result (option string) :=
  match inputs with
  | line :: rest =>
      let name_in := str_strip line in
      if decide (str_lower name_in ∈ ["n"; "no"]) then
        {| ui_value := inr None; ui_rest := rest; ui_log := [Asked name_prompt] |}
      else if decide (name_in = EmptyString) then
        {| ui_value :=
             inr (Some (safe_host hostname +:+ "_" +:+ stamp +:+ "." +:+
                        default_format));
           ui_rest := rest; ui_log := [Asked name_prompt] |}
      else
        let ext := (splitext name_in).2 in
        if decide (ext <> EmptyString) then
          let ext_clean := str_lower (str_lstrip_char "." ext) in
          if decide (ext_clean ∈ ["csv"; "json"]) then
            {| ui_value := inr (Some name_in); ui_rest := rest;
               ui_log := [Asked name_prompt] |}
          else
            ui_after
              [Asked name_prompt;
               Said "Unsupported extension. Use .csv or .json, or leave empty to auto-name."]
              (choose_output_filename splitext stamp hostname default_format rest)
        else
          match rest with
          | line2 :: rest2 =>
              let fmt_choice := str_strip line2 in
              let fmt :=
                if decide (fmt_choice = "2" \/ str_lower fmt_choice ∈ ["json"; "j"])
                then "json" else "csv" in
              {| ui_value := inr (Some (name_in +:+ "." +:+ fmt));
                 ui_rest := rest2;
                 ui_log := [Asked name_prompt; Asked format_prompt] |}
          | [] => eof_after [Asked name_prompt; Asked format_prompt]
          end
  | [] => eof_after [Asked name_prompt]
  end.

(** ** [resolve_host] and [input_host] *)

Definition resolve_host (gethostbyname : string -> result string)
    (host : string) : option string :=
  match gethostbyname host with
  | Ok ip => Some ip
  | Raise _ => None
  end.

Definition host_prompt : string :=
  nl +:+ "Enter target (hostname or IP) or 'q' to cancel: ".

Fixpoint input_host (gethostbyname : string -> result string)
    (inputs : list string) : ui_result (option (string * string)) :=
  match inputs with
  | line :: rest =>
      let host := str_strip line in
      if decide (host = EmptyString) then
        ui_after [Asked host_prompt] (input_host gethostbyname rest)
      else if decide (str_lower host ∈ ["q"; "quit"; "exit"]) then
        {| ui_value := inr None; ui_rest := rest; ui_log := [Asked host_prompt] |}
      else
        match resolve_host gethostbyname host with
        | Some (String c ip') =>
            {| ui_value := inr (Some (host, String c ip')); ui_rest := rest;
               ui_log := [Asked host_prompt] |}
        | _ =>
            ui_after
              [Asked host_prompt;
               Said "[!] Could not resolve host. Try again or type 'q' to cancel."]
              (input_host gethostbyname rest)
        end
  | [] => eof_after [Asked host_prompt]
  end.

(** ** [scanner_submenu] *)

Definition press_enter_scanner : string :=
  nl +:+ "Press Enter to return to scanner menu...".

(** The [try ... float(...) except ValueError] block of options 1 to 4:
    a blank answer stands for ["1.0"], an answer [float()] refuses gives
    1.0. *)
Definition read_timeout (pf : platform) : UI Q :=
  line <~ ui_input "Timeout seconds (default 1.0): " ;;
  let s := str_strip line in
  ui_ret (default 1%Q (pf_float pf (if decide (s = EmptyString) then "1.0" else s))).

(** [run_scan(ip, ports, threads=..., timeout=..., save_path=out)]; the
    menus drop the list it returns, and an exception it raises goes on. *)
Definition ui_run_scan (pf : platform) (ip : string) (ports : list Z)
    (threads : Z) (timeout : Q) (out : option string) : UI unit := fun inputs =>
  let r := run_scan (pf_world pf (length inputs)) ip ports threads timeout out in
  {| ui_value :=
       match rr_return r with
       | inr _ => inr tt
       | inl e => inl (UiRaised e)
       end;
     ui_rest := inputs;
     ui_log := [Scanned ip ports threads timeout out r] |}.

(** The common end of options 1 to 4: ask for the threads, the timeout
    and the output file, scan, and wait for Enter. *)
Definition launch_scan (pf : platform) (hostname ip : string)
    (threads_prompt : string) (threads_default : Z) (ports : list Z) : UI unit :=
  threads <~ prompt_int threads_prompt (Some threads_default) (Some 1) (Some 2000) ;;
  timeout <~ read_timeout pf ;;
  out <~ (fun inputs =>
            choose_output_filename (pf_splitext pf)
              (pf_strftime pf (length inputs)) hostname "csv" inputs) ;;
  ui_run_scan pf ip ports threads timeout out ;;;
  _ <~ ui_input press_enter_scanner ;;
  ui_ret tt.

(** What option 3 makes of the text of a range. *)
Inductive range_verdict : Type :=
| RangeBadFormat
| RangeBadValues
| RangeBadNumbers
| RangePorts (ports : list Z).

Definition range_choice (rng : string) : range_verdict :=
  if negb (str_contains "-" rng) then RangeBadFormat
  else
    match str_split1 "-" rng with
    | [a_str; b_str] =>
        match py_int a_str with
        | Some a =>
            match py_int b_str with
            | Some b =>
                if (a <? 1) || (b >? 65535) || (a >? b) then RangeBadValues
                else RangePorts (seqZ a (b + 1 - a))
            | None => RangeBadNumbers
            end
        | None => RangeBadNumbers
        end
    | _ => RangeBadNumbers
    end.

Definition submenu_header (pf : platform) (hostname ip : string)
  : list ui_event :=
  clear_screen pf ++ print_banner pf "PORT SCANNER" "slant" ++
  [Said (nl +:+ "Target: " +:+ hostname +:+ " (" +:+ ip +:+ ")");
   Said "1) Scan ALL ports (1-65535)  [CAUTION: heavy]";
   Said "2) Scan common ports";
   Said "3) Scan a RANGE of ports (e.g. 1000-2000)";
   Said "4) Scan SPECIFIC ports (e.g. 22,80,8000-8100)";
   Said "5) Back (change target)";
   Said "6) Exit"].

(** One turn of the [while True] loop per unit of fuel. *)
Fixpoint scanner_submenu_loop (pf : platform) (fuel : nat)
    (hostname ip : string) : UI unit :=
  match fuel with
  | O => ui_fail OutOfFuel
  | S fuel' =>
      let again := scanner_submenu_loop pf fuel' hostname ip in
      let wait_and_go_on :=
        (_ <~ ui_input press_enter_scanner ;; again) in
      ui_emit (submenu_header pf hostname ip) ;;;
      line <~ ui_input "Select [1-6]: " ;;
      let choice := str_strip line in
      if decide (choice = "1") then
        line <~ ui_input
          "Scan ALL ports (1-65535)? This is heavy. Type 'yes' to confirm: " ;;
        if decide (str_lower (str_strip line) <> "yes") then again
        else
          launch_scan pf hostname ip "Threads (default 200): " 200
            (seqZ 1 65535) ;;;
          again
      else if decide (choice = "2") then
        ui_print ("Common ports: " +:+ str_join ", " (py_str <$> COMMON_PORTS)) ;;;
        launch_scan pf hostname ip "Threads (default 100): " 100 COMMON_PORTS ;;;
        again
      else if decide (choice = "3") then
        line <~ ui_input "Enter range as start-end (e.g. 1000-2000): " ;;
        match range_choice (str_strip line) with
        | RangeBadFormat =>
            ui_print "Invalid format. Use start-end." ;;; wait_and_go_on
        | RangeBadValues =>
            (* the wait is inside the [try]: [EOFError] there is caught *)
            ui_try
              (ui_print "Invalid range values." ;;;
               _ <~ ui_input press_enter_scanner ;; ui_ret tt)
              (ui_print "Invalid numbers." ;;;
               _ <~ ui_input press_enter_scanner ;; ui_ret tt) ;;;
            again
        | RangeBadNumbers =>
            ui_print "Invalid numbers." ;;; wait_and_go_on
        | RangePorts ports =>
            launch_scan pf hostname ip "Threads (default 200): " 200 ports ;;;
            again
        end
      else if decide (choice = "4") then
        line <~ ui_input "Enter ports (comma separated, ranges allowed): " ;;
        match parse_ports_input (str_strip line) with
        | None =>
            ui_print "Invalid ports specification." ;;; wait_and_go_on
        | Some parsed =>
            launch_scan pf hostname ip "Threads (default 100): " 100 parsed ;;;
            again
        end
      else if decide (choice = "5") then ui_ret tt
      else if decide (choice = "6") then
        ui_print "Exiting. Goodbye." ;;; ui_fail (SystemExit 0)
      else
        ui_print "Invalid choice. Enter a number between 1 and 6." ;;;
        _ <~ ui_input (nl +:+ "Press Enter to continue...") ;;
        again
  end.

(** Every turn reads a line, so one unit of fuel per unread line, and one
    more, is enough. *)
Definition scanner_submenu (pf : platform) (hostname ip : string) : UI unit :=
  fun inputs => scanner_submenu_loop pf (S (length inputs)) hostname ip inputs.

(** ** [main_menu] and the program *)

Definition main_header (pf : platform) : list ui_event :=
  clear_screen pf ++ print_banner pf "PORT SCANNER" "slant" ++
  [Said ("Version: " +:+ version +:+ "    Build date: " +:+ build_date);
   Said "=== Welcome to Simple CLI Port Scanner ===";
   Said (nl +:+ "Main Menu:");
   Said "1) Run Scanner";
   Said "2) Contact / About";
   Said "3) Exit"].

Definition contact_page (pf : platform) : list ui_event :=
  clear_screen pf ++ print_banner pf "CONTACT" "small" ++
  [Said (nl +:+ "Contact Information:");
   Said ("Name:      " +:+ contact "name");
   Said ("Email:     " +:+ contact "email");
   Said ("GitHub:    " +:+ contact "github");
   Said ("Telegram:  " +:+ contact "telegram");
   Said ("Instagram: " +:+ contact "instagram");
   Said ("X:         " +:+ contact "x")].

Fixpoint main_menu_loop (pf : platform) (fuel : nat) : UI unit :=
  match fuel with
  | O => ui_fail OutOfFuel
  | S fuel' =>
      let again := main_menu_loop pf fuel' in
      ui_emit (main_header pf) ;;;
      line <~ ui_input "Select [1-3]: " ;;
      let choice := str_strip line in
      if decide (choice = "1") then
        host_entry <~ input_host (pf_gethostbyname pf) ;;
        match host_entry with
        | None => again
        | Some (hostname, ip) => scanner_submenu pf hostname ip ;;; again
        end
      else if decide (choice = "2") then
        ui_emit (contact_page pf) ;;;
        _ <~ ui_input (nl +:+ "Press Enter to return to main menu...") ;;
        again
      else if decide (choice = "3") then
        ui_emit (clear_screen pf ++ [Said "Goodbye."])
      else
        ui_print "Invalid choice. Enter 1, 2 or 3." ;;;
        _ <~ ui_input (nl +:+ "Press Enter to continue...") ;;
        again
  end.

Definition main_menu (pf : platform) : UI unit :=
  fun inputs => main_menu_loop pf (S (length inputs)) inputs.

(** The [if __name__ == '__main__'] block. *)
Definition main (pf : platform) : UI unit := fun inputs =>
  let r := main_menu pf inputs in
  match ui_value r with
  | inl (UiRaised KeyboardInterrupt) =>
      {| ui_value := inl (SystemExit 0); ui_rest := ui_rest r;
         ui_log := ui_log r ++ [Said (nl +:+ "Interrupted by user. Exiting.")] |}
  | _ => r
  end.

(** ** An example platform *)

Definition demo_resolver (host : string) : result string :=
  if decide (host = "localhost") then Ok "127.0.0.1"
  else if decide (host = "10.0.0.1") then Ok "10.0.0.1"
  else Raise gaierror.

Definition demo_float (s : string) : option Q :=
  if decide (s = "1.0") then Some 1%Q
  else if decide (s = "0.5") then Some (1 # 2)%Q
  else if decide (s = "2") then Some 2%Q
  else None.

Definition demo_platform : platform :=
  {| pf_os_name := "posix"; pf_figlet := None; pf_float := demo_float;
     pf_splitext := posix_splitext;
     pf_strftime := fun _ => "20251003_120000";
     pf_gethostbyname := demo_resolver;
     pf_scan_world := fun _ => demo_world demo_net [] None |}.

(** ** Vocabulary for the interactive layer *)

(** An event other than a scan. *)
Definition is_talk (ev : ui_event) : Prop :=
  match ev with
  | Scanned _ _ _ _ _ _ => False
  | _ => True
  end.

(** [v] respects the bounds that are given. *)
Definition in_bounds (minv maxv : option Z) (v : Z) : Prop :=
  (forall m, minv = Some m -> m <= v) /\ (forall m, maxv = Some m -> v <= m).

(** [line] is an answer [prompt_int] takes, and [v] the value it takes
    from it: the default on a blank line when there is a default, or the
    integer the line spells when it is within the bounds. *)
Definition accepted (default minv maxv : option Z) (line : string) (v : Z)
  : Prop :=
  (str_strip line = EmptyString /\ default = Some v) \/
  (py_int (str_strip line) = Some v /\ in_bounds minv maxv v).

(** [prompt_int] asks again after [line]. *)
Definition refused (default minv maxv : option Z) (line : string) : Prop :=
  forall v, ~ accepted default minv maxv line v.

(** A port list as the engine is meant to get it: strictly ascending,
    every port between 1 and 65535. *)
Definition well_formed_ports (ports : list Z) : Prop :=
  StronglySorted Z.lt ports /\ Forall (fun p => 1 <= p <= 65535) ports.

(** A scan event satisfies [allowed]; any other event does. *)
Definition scans_satisfy (allowed : string -> list Z -> Z -> Prop) (ev : ui_event)
  : Prop :=
  match ev with
  | Scanned ip ports threads _ _ _ => allowed ip ports threads
  | _ => True
  end.

(** The ways a menu ends without returning: [sys.exit(0)], an interrupt
    that left [run_scan], or the end of the input. *)
Definition menu_exit (e : ui_exit) : Prop :=
  e = SystemExit 0 \/ e = UiRaised KeyboardInterrupt \/
  e = UiRaised (ExceptionRaised EOFError).

(** [m], run with at most [B] lines to read, leaves a suffix of them
    unread, runs only scans that satisfy [allowed], ends as a menu may, and
    when it returns a value the value satisfies [Q]. *)
Definition ui_ok {A} (allowed : string -> list Z -> Z -> Prop) (Q : A -> Prop)
    (B : nat) (m : UI A) : Prop :=
  forall inputs, (length inputs <= B)%nat ->
    ui_rest (m inputs) `suffix_of` inputs /\
    Forall (scans_satisfy allowed) (ui_log (m inputs)) /\
    match ui_value (m inputs) with
    | inl e => menu_exit e
    | inr a => Q a
    end.

(** The scans a submenu for [ip] may run. *)
Definition submenu_scan (ip : string) (target : string) (ports : list Z)
    (threads : Z) : Prop :=
  target = ip /\ 1 <= threads <= 2000 /\ well_formed_ports ports.

(** The scans of a log, in order: target, ports and thread count. *)
Definition scans_of (log : list ui_event) : list (string * list Z * Z) :=
  omap (fun ev => match ev with
                  | Scanned target ports threads _ _ _ => Some (target, ports, threads)
                  | _ => None
                  end) log.

(** The scans the program may run. *)
Definition program_scan (pf : platform) (target : string) (ports : list Z)
    (threads : Z) : Prop :=
  (exists host, pf_gethostbyname pf host = Ok target) /\
  1 <= threads <= 2000 /\ well_formed_ports ports.

(** On POSIX paths: the last component of a path, and that component
    without its leading dots. *)
Definition posix_basename (p : string) : string :=
  match rsplit_at "/" p with
  | Some (_, name) => name
  | None => p
  end.

Definition posix_stem (p : string) : string :=
  str_lstrip_char "." (posix_basename p).

(** The format [run_scan] writes a file in, from the file's name. *)
Definition save_format (splitext : string -> string * string) (path : string)
  : file_format :=
  if decide (str_lower (str_lstrip_char "." (splitext path).2) = "json")
  then JSON else CSV.

(* ===================================================================== *)
(** * Part II.  Properties                                                *)
(* ===================================================================== *)

(** ** The functions on concrete inputs *)

Example py_int_examples :
  py_int " 42 " = Some 42 /\ py_int "+7" = Some 7 /\ py_int "-7" = Some (-7) /\
  py_int "1_000" = Some 1000 /\ py_int "007" = Some 7 /\
  py_int EmptyString = None /\ py_int "abc" = None /\ py_int "1__0" = None /\
  py_int "_1" = None /\ py_int "1_" = None /\ py_int "+ 1" = None /\
  py_int "2-3" = None.
Proof. by vm_compute. Qed.

Example str_examples :
  str_split "," ",a,,b," =
    [EmptyString; "a"; EmptyString; "b"; EmptyString] /\
  str_split "," EmptyString = [EmptyString] /\
  str_split1 "-" "1-2-3" = ["1"; "2-3"] /\
  str_strip "  8000-8002 " = "8000-8002" /\
  tokens " 22, ,80 ,," = ["22"; "80"].
Proof. by vm_compute. Qed.

Example parse_ports_input_examples :
  parse_ports_input "443,22,22,20-23" = Some [20; 21; 22; 23; 443] /\
  parse_ports_input " 80 , 1 - 3 ,,+5" = Some [1; 2; 3; 5; 80] /\
  parse_ports_input "1,65535" = Some [1; 65535] /\
  parse_ports_input "0" = None /\ parse_ports_input "70000" = None /\
  parse_ports_input "5-2" = None /\ parse_ports_input "abc" = None /\
  parse_ports_input "-5" = None /\ parse_ports_input "1-2-3" = None /\
  parse_ports_input "22,80,x" = None /\
  parse_ports_input EmptyString = None.
Proof. by vm_compute. Qed.

Example scan_port_examples :
  scan_port all_open "10.0.0.1" 22 1%Q = Ok (22, true) /\
  scan_port refusing "10.0.0.1" 22 1%Q = Ok (22, false) /\
  scan_port {| socket_new := Raise (OSError 24);
               sock_settimeout := fun _ => Ok ();
               sock_connect_ex := fun _ _ => Ok 0 |} "10.0.0.1" 22 1%Q
    = Ok (22, false) /\
  scan_port {| socket_new := Ok ();
               sock_settimeout := fun _ => Ok ();
               sock_connect_ex := fun _ _ => Raise gaierror |} "no.such.host" 22 1%Q
    = Ok (22, false).
Proof. by vm_compute. Qed.

(** Ports 22 and 443 open, 443 completing first, then 21, then the rest
    in submission order. *)
Example run_scan_example :
  let r := run_scan (demo_world demo_net [3%nat; 0%nat] None) "10.0.0.1"
             [21; 22; 80; 443] 100 1%Q (Some "scan.json") in
  rr_return r = inr [443; 22] /\
  row_port <$> rr_results r = [443; 21; 22; 80] /\
  row_status <$> rr_results r = ["open"; "closed"; "open"; "closed"] /\
  rr_trace r =
    [Printed (MsgStarting "10.0.0.1" 4 100 1%Q); PoolCreate 4;
     Submit 21; Submit 22; Submit 80; Submit 443;
     Printed (MsgPortOpen 443); Printed (MsgPortOpen 22);
     PoolShutdown; Printed MsgScanComplete; Printed (MsgOpenPorts [443; 22]);
     Printed MsgElapsed;
     FileWrite "scan.json" JSON (rr_results r); Printed (MsgSaved "scan.json" JSON)].
Proof. by vm_compute. Qed.

Example posix_splitext_examples :
  posix_splitext "scan.json" = ("scan", ".json") /\
  posix_splitext "out/host_20251003.CSV" = ("out/host_20251003", ".CSV") /\
  posix_splitext "x.tar.gz" = ("x.tar", ".gz") /\
  posix_splitext ".hidden" = (".hidden", EmptyString) /\
  posix_splitext "dir.d/name" = ("dir.d/name", EmptyString).
Proof. by vm_compute. Qed.

(** ** Sorting a set *)

Lemma StronglySorted_le_lt (l : list Z) :
  StronglySorted Z.le l -> NoDup l -> StronglySorted Z.lt l.
Proof.
  induction 1 as [|x l Hl IH Hx]; intros Hnd; [constructor|].
  apply NoDup_cons in Hnd as [Hx' Hnd].
  constructor; [by apply IH|].
  apply Forall_forall. intros y Hy.
  rewrite Forall_forall in Hx. specialize (Hx y Hy).
  assert (x <> y) by (intros ->; done). lia.
Qed.

Lemma sorted_strict (X : gset Z) : StronglySorted Z.lt (sorted X).
Proof.
  unfold sorted. apply StronglySorted_le_lt.
  - apply (StronglySorted_merge_sort Z.le).
  - rewrite merge_sort_Permutation. apply NoDup_elements.
Qed.

Lemma elem_of_sorted (X : gset Z) (p : Z) : p ∈ sorted X <-> p ∈ X.
Proof. unfold sorted. by rewrite merge_sort_Permutation, elem_of_elements. Qed.

Lemma elem_of_add_range (a b : Z) (X : gset Z) (p : Z) :
  p ∈ add_range a b X <-> p ∈ X \/ a <= p <= b.
Proof.
  unfold add_range.
  assert (Hgen : forall l (Y : gset Z),
    p ∈ foldl (fun acc q => {[q]} ∪ acc) Y l <-> p ∈ Y \/ p ∈ l).
  { induction l as [|q l IH]; intros Y; simpl.
    - rewrite elem_of_nil. tauto.
    - rewrite IH, elem_of_union, elem_of_singleton, elem_of_cons. tauto. }
  rewrite Hgen, elem_of_seqZ.
  assert (a <= p < a + (b + 1 - a) <-> a <= p <= b) by lia. tauto.
Qed.

(** ** The parser keeps every port in range *)

Lemma parse_part_in_range (ports ports' : gset Z) (part : string) :
  parse_part ports part = Some ports' ->
  all_in_range ports -> all_in_range ports'.
Proof.
  unfold parse_part, all_in_range. intros Hp Hin p.
  repeat (case_match; simplify_eq; try done); auto.
  - rewrite elem_of_add_range. intros [?|?]; [auto|lia].
  - rewrite elem_of_union, elem_of_singleton. intros [->|?]; [lia|auto].
Qed.

Lemma parse_parts_in_range (parts : list string) (ports ports' : gset Z) :
  parse_parts ports parts = Some ports' ->
  all_in_range ports -> all_in_range ports'.
Proof.
  revert ports. induction parts as [|part parts IH]; simpl; intros ports Hp Hin.
  - by simplify_eq.
  - destruct (parse_part ports part) as [ports1|] eqn:E; [|done].
    eapply IH; [exact Hp|]. eapply parse_part_in_range; eauto.
Qed.

Lemma sorted_NoDup (X : gset Z) : NoDup (sorted X).
Proof. unfold sorted. rewrite merge_sort_Permutation. apply NoDup_elements. Qed.

Lemma parse_ports_input_sorted (spec : string) (l : list Z) :
  parse_ports_input spec = Some l ->
  StronglySorted Z.lt l /\ NoDup l /\ Forall (fun p => 1 <= p <= 65535) l.
Proof.
  unfold parse_ports_input. case_decide; [done|].
  destruct (parse_parts ∅ (str_split "," spec)) as [X|] eqn:E; [|done].
  simpl. intros [= <-]. split; [apply sorted_strict|].
  split; [apply sorted_NoDup|].
  apply Forall_forall. intros p Hp. apply elem_of_sorted in Hp.
  eapply parse_parts_in_range; [exact E| |exact Hp].
  intros q Hq. by apply not_elem_of_empty in Hq.
Qed.

(** ** What [int()] accepts *)

Lemma digit_value_spec (c : ascii) (d : Z) :
  digit_value c = Some d -> c <> "-"%char /\ 0 <= d.
Proof.
  intros H. split.
  - intros ->. vm_compute in H. discriminate.
  - unfold digit_value in H. case_match; simplify_eq. lia.
Qed.

Lemma int_isspace_not_hyphen (c : ascii) : int_isspace c = true -> c <> "-"%char.
Proof. intros H ->. vm_compute in H. discriminate. Qed.

Lemma str_contains_cons_ne (x c : ascii) (r : string) :
  c <> x -> str_contains x (String c r) = str_contains x r.
Proof. intros Hne. simpl. by case_decide. Qed.

Lemma int_digits_spec (s : string) :
  forall acc n us v n' rest,
    int_digits acc n us s = Some (v, n', rest) -> 0 <= acc ->
    0 <= v /\ str_contains "-" s = str_contains "-" rest.
Proof.
  induction s as [|c r IH]; intros acc n us v n' rest H Hacc.
  - simpl in H. destruct us; simplify_eq. done.
  - cbn [int_digits] in H. destruct (digit_value c) as [d|] eqn:Hd.
    + apply digit_value_spec in Hd as [Hc Hd0].
      rewrite str_contains_cons_ne by done.
      eapply IH; [exact H|lia].
    + case_decide as Hus.
      * destruct us; [done|]. subst c.
        rewrite str_contains_cons_ne by done. eapply IH; eauto.
      * destruct us; simplify_eq. done.
Qed.

Lemma int_all_space_no_hyphen (s : string) :
  int_all_space s = true -> str_contains "-" s = false.
Proof.
  induction s as [|c r IH]; [done|]. cbn [int_all_space].
  intros [Hc Hr]%andb_prop.
  rewrite str_contains_cons_ne by by apply int_isspace_not_hyphen. auto.
Qed.

Lemma int_unsigned_spec (s : string) (v : Z) :
  int_unsigned s = Some v -> 0 <= v /\ str_contains "-" s = false.
Proof.
  unfold int_unsigned. destruct s as [|c r]; [done|].
  case_decide; [done|].
  destruct (int_digits 0 0 false (String c r)) as [[[v' n] rest]|] eqn:E; [|done].
  repeat (case_decide; [done|]).
  destruct (int_all_space rest) eqn:Hsp; [|done]. intros [= <-].
  apply int_digits_spec in E as [Hv Hc]; [|lia].
  split; [done|]. rewrite Hc. by apply int_all_space_no_hyphen.
Qed.

Lemma int_lstrip_contains (s : string) :
  str_contains "-" (int_lstrip s) = str_contains "-" s.
Proof.
  induction s as [|c r IH]; [done|]. cbn [int_lstrip].
  destruct (int_isspace c) eqn:Hc; [|done].
  rewrite (str_contains_cons_ne _ c) by by apply int_isspace_not_hyphen. done.
Qed.

(** A literal with a hyphen in it is a negative number or zero. *)
Lemma py_int_hyphen (s : string) (v : Z) :
  py_int s = Some v -> str_contains "-" s = true -> v <= 0.
Proof.
  unfold py_int. rewrite <- int_lstrip_contains.
  destruct (int_lstrip s) as [|c r]; [done|].
  repeat case_decide; subst.
  - intros Hu%int_unsigned_spec. rewrite str_contains_cons_ne by done.
    destruct Hu as [_ Hu]. congruence.
  - destruct (int_unsigned r) as [v'|] eqn:E; [|done]. simpl.
    intros [= <-] _. apply int_unsigned_spec in E. lia.
  - intros Hu%int_unsigned_spec. destruct Hu as [_ Hu]. congruence.
Qed.

(** ** Splitting at hyphens *)

Lemma hyphen_splits_spec (t a b : string) :
  (a, b) ∈ hyphen_splits t -> t = a +:+ String "-" b.
Proof.
  revert a. induction t as [|c r IH]; intros a; cbn [hyphen_splits].
  - by rewrite elem_of_nil.
  - rewrite elem_of_app, list_elem_of_fmap. intros [H|([a' b'] & Heq & H)].
    + case_decide; [|by apply elem_of_nil in H].
      apply list_elem_of_singleton in H. by simplify_eq.
    + simpl in Heq. simplify_eq.
      change (String c r = String c (a' +:+ String "-" b')).
      f_equal. by apply IH.
Qed.

Lemma str_contains_app (x : ascii) (a b : string) :
  str_contains x (a +:+ String x b) = true.
Proof.
  induction a as [|c a IH]; simpl.
  - by case_decide.
  - by case_decide.
Qed.

Lemma str_split1_app (x : ascii) (a b : string) :
  str_contains x a = false -> str_split1 x (a +:+ String x b) = [a; b].
Proof.
  induction a as [|c a IH]; simpl.
  - by case_decide.
  - case_decide; [done|]. intros Hno. by rewrite IH.
Qed.

Lemma str_split1_inv (t : string) :
  str_contains "-" t = true ->
  exists a b, str_split1 "-" t = [a; b] /\ (a, b) ∈ hyphen_splits t.
Proof.
  induction t as [|c r IH]; [done|]. cbn [str_contains str_split1 hyphen_splits].
  case_decide as Hc.
  - intros _. exists EmptyString, r. split; [done|].
    apply elem_of_app. left. apply list_elem_of_singleton. done.
  - intros (a & b & -> & Hin)%IH. exists (String c a), b. split; [done|].
    apply elem_of_app. right. apply list_elem_of_fmap. by exists (a, b).
Qed.

(** ** The loop body accepts exactly the acceptable tokens *)

Lemma token_range_ok_spec (a_str b_str : string) :
  token_range_ok (a_str, b_str) = true <->
  exists a b, py_int a_str = Some a /\ py_int b_str = Some b /\
              1 <= a /\ a <= b /\ b <= 65535.
Proof.
  unfold token_range_ok, in_port_range. simpl.
  destruct (py_int a_str) as [a|], (py_int b_str) as [b|]; split;
    try done; try (by intros (? & ? & ? & ? & _)).
  - intros H. exists a, b. repeat split; lia.
  - intros (a' & b' & [= <-] & [= <-] & ?). lia.
Qed.

Lemma parse_part_unfold (ports : gset Z) (part : string) :
  parse_part ports part =
  if decide (str_strip part = EmptyString) then Some ports
  else token_step ports (str_strip part).
Proof. reflexivity. Qed.

Lemma token_step_ok (ports : gset Z) (t : string) :
  is_Some (token_step ports t) <-> token_ok t = true.
Proof.
  unfold token_step, token_ok, token_single_ok.
  rewrite orb_true_iff, existsb_exists.
  destruct (str_contains "-" t) eqn:Hc.
  - destruct (str_split1_inv t Hc) as (a_str & b_str & Hsplit & Hin).
    split.
    + rewrite Hsplit. intros Hs. right. exists (a_str, b_str).
      split; [by apply list_elem_of_In|]. apply token_range_ok_spec.
      destruct (py_int a_str) as [a|]; [|by destruct Hs].
      destruct (py_int b_str) as [b|]; [|by destruct Hs].
      exists a, b.
      destruct ((a <? 1) || (b >? 65535) || (a >? b)) eqn:E;
        [by destruct Hs|].
      repeat split; try done; lia.
    + intros [Hs|([a' b'] & Hin' & Hok)].
      * destruct (py_int t) as [p|] eqn:Hp; [|done].
        pose proof (py_int_hyphen t p Hp Hc). unfold in_port_range in Hs. lia.
      * apply list_elem_of_In in Hin'. apply hyphen_splits_spec in Hin'.
        apply token_range_ok_spec in Hok as (a & b & Ha & Hb & ? & ? & ?).
        assert (str_contains "-" a' = false) as Ha'.
        { destruct (str_contains "-" a') eqn:E; [|done].
          pose proof (py_int_hyphen a' a Ha E). lia. }
        pose proof (str_split1_app "-" a' b' Ha') as Hsp.
        rewrite <- Hin' in Hsp. rewrite Hsp, Ha, Hb.
        destruct ((a <? 1) || (b >? 65535) || (a >? b)) eqn:E; [lia|]. done.
  - split.
    + intros Hs. left. destruct (py_int t) as [p|]; [|by destruct Hs].
      unfold in_port_range. destruct (_ && _); [done|by destruct Hs].
    + intros [Hs|([a' b'] & Hin' & _)].
      * destruct (py_int t) as [p|]; [|done]. unfold in_port_range in Hs.
        rewrite Hs. done.
      * apply list_elem_of_In, hyphen_splits_spec in Hin'.
        rewrite Hin', str_contains_app in Hc. done.
Qed.

(** ** The loop sees only the tokens *)

Lemma parse_parts_tokens (parts : list string) (ports : gset Z) :
  parse_parts ports parts =
  parse_tokens ports (filter (fun t => t <> EmptyString) (str_strip <$> parts)).
Proof.
  revert ports. induction parts as [|part parts IH]; intros ports; [done|].
  cbn [parse_parts fmap list_fmap]. rewrite parse_part_unfold.
  case_decide as Hb.
  - rewrite filter_cons_False by (by intros ?). apply IH.
  - rewrite filter_cons_True by done. cbn [parse_tokens].
    destruct (token_step ports (str_strip part)); [apply IH|done].
Qed.

Lemma parse_tokens_ok (ts : list string) (ports : gset Z) :
  is_Some (parse_tokens ports ts) <-> forallb token_ok ts = true.
Proof.
  revert ports. induction ts as [|t ts IH]; intros ports; cbn [parse_tokens forallb].
  - split; [done|by eexists].
  - rewrite andb_true_iff, <- (token_step_ok ports t).
    destruct (token_step ports t) as [ports'|].
    + rewrite IH. split; [intros ?; split; [by eexists|done]|by intros [_ ?]].
    + split; [by intros [? ?]|by intros [[? ?] _]].
Qed.

Lemma parse_ports_input_tokens (spec : string) :
  spec <> EmptyString ->
  parse_ports_input spec = sorted <$> parse_tokens ∅ (tokens spec).
Proof.
  intros Hne. unfold parse_ports_input, tokens.
  case_decide; [done|]. by rewrite parse_parts_tokens.
Qed.

Lemma parse_ports_input_accepts (spec : string) :
  is_Some (parse_ports_input spec) <-> valid_spec spec = true.
Proof.
  unfold valid_spec. rewrite andb_true_iff, bool_decide_eq_true.
  destruct (decide (spec = EmptyString)) as [->|Hne].
  - split; [by intros [? ?]|by intros [? _]].
  - rewrite parse_ports_input_tokens, <- (parse_tokens_ok _ ∅) by done.
    rewrite fmap_is_Some. tauto.
Qed.

(** ** Commas *)

Lemma str_split_nonempty (x : ascii) (s : string) : str_split x s <> [].
Proof.
  destruct s as [|c r]; [done|]. simpl.
  case_decide; [done|]. by destruct (str_split x r).
Qed.

Lemma str_split_app (x : ascii) (a b : string) :
  str_split x (a +:+ String x b) = str_split x a ++ str_split x b.
Proof.
  induction a as [|c a IH].
  - simpl. by case_decide.
  - change (String c a +:+ String x b) with (String c (a +:+ String x b)).
    cbn [str_split]. case_decide; [by rewrite IH|].
    rewrite IH. pose proof (str_split_nonempty x a).
    by destruct (str_split x a).
Qed.

Lemma tokens_empty : tokens EmptyString = [].
Proof. reflexivity. Qed.

Lemma tokens_app (a b : string) :
  tokens (a +:+ String "," b) = tokens a ++ tokens b.
Proof. unfold tokens. by rewrite str_split_app, fmap_app, filter_app. Qed.

Lemma tokens_leading_comma (s : string) : tokens (String "," s) = tokens s.
Proof. apply (tokens_app EmptyString s). Qed.

Lemma append_comma_nonempty (a b : string) : a +:+ String "," b <> EmptyString.
Proof. by destruct a. Qed.

(** ** Port Set Builder: the claims *)

(** C3.  [parse_ports_input("22,80,8000-8002")] is [[22, 80, 8000, 8001,
    8002]], and for every valid specification the parser returns a list
    that is strictly ascending, free of duplicates, and made of ports
    between 1 and 65535. *)
Theorem parse_ports_input_valid_sorted :
  parse_ports_input "22,80,8000-8002" = Some [22; 80; 8000; 8001; 8002] /\
  forall spec : string,
    valid_spec spec = true ->
    exists ports : list Z,
      parse_ports_input spec = Some ports /\
      StronglySorted Z.lt ports /\ NoDup ports /\
      Forall (fun p => 1 <= p <= 65535) ports.
Proof.
  split; [by vm_compute|].
  intros spec [ports Hp]%parse_ports_input_accepts.
  exists ports. split; [done|]. by apply parse_ports_input_sorted in Hp.
Qed.

(** C3 at the specification [" 443, 1000-1003 ,22"]. *)
Lemma parse_ports_input_valid_sorted_witness :
  valid_spec " 443, 1000-1003 ,22" = true /\
  exists ports : list Z,
    parse_ports_input " 443, 1000-1003 ,22" = Some ports /\
    StronglySorted Z.lt ports /\ NoDup ports /\
    Forall (fun p => 1 <= p <= 65535) ports.
Proof.
  split; [vm_compute; reflexivity|].
  apply (proj2 parse_ports_input_valid_sorted " 443, 1000-1003 ,22").
  vm_compute; reflexivity.
Defined.

(** C4.  The empty specification is rejected, and so is every
    specification one of whose tokens is malformed, out of range or an
    inverted range: the parser returns [None], whatever the other tokens
    are. *)
Theorem parse_ports_input_rejects :
  parse_ports_input EmptyString = None /\
  forall (spec t : string),
    t ∈ tokens spec -> token_ok t = false ->
    parse_ports_input spec = None.
Proof.
  split; [done|]. intros spec t Hin Hbad.
  destruct (parse_ports_input spec) as [l|] eqn:E; [|done].
  assert (valid_spec spec = true) as Hv by (apply parse_ports_input_accepts; eauto).
  unfold valid_spec in Hv. apply andb_true_iff in Hv as [_ Hall].
  rewrite forallb_forall in Hall. apply list_elem_of_In, Hall in Hin. congruence.
Qed.

(** C4 at a specification whose third token is an inverted range. *)
Lemma parse_ports_input_rejects_witness :
  ("5-2" ∈ tokens "22,80, 5-2 ,443" /\ token_ok "5-2" = false) /\
  parse_ports_input "22,80, 5-2 ,443" = None.
Proof.
  assert ("5-2" ∈ tokens "22,80, 5-2 ,443") as Hin.
  { apply list_elem_of_In. vm_compute. tauto. }
  split; [split; [exact Hin|vm_compute; reflexivity]|].
  apply (proj2 parse_ports_input_rejects "22,80, 5-2 ,443" "5-2" Hin).
  vm_compute; reflexivity.
Defined.

(** C10.  On a non-empty specification the parser sees the tokens only:
    two non-empty specifications with the same non-empty trimmed tokens
    parse alike.  So a leading comma, a trailing comma or a doubled comma
    changes nothing, and a non-empty specification without any token,
    such as [","], gives the empty list. *)
Theorem parse_ports_input_skips_empty_tokens :
  (forall s1 s2 : string,
     s1 <> EmptyString -> s2 <> EmptyString -> tokens s1 = tokens s2 ->
     parse_ports_input s1 = parse_ports_input s2) /\
  (forall s : string,
     s <> EmptyString ->
     parse_ports_input ("," +:+ s) = parse_ports_input s /\
     parse_ports_input (s +:+ ",") = parse_ports_input s) /\
  (forall s1 s2 : string,
     parse_ports_input (s1 +:+ ",," +:+ s2) =
     parse_ports_input (s1 +:+ "," +:+ s2)) /\
  (forall s : string,
     s <> EmptyString -> tokens s = [] -> parse_ports_input s = Some []) /\
  parse_ports_input "," = Some [].
Proof.
  assert (Hgen : forall s1 s2 : string,
     s1 <> EmptyString -> s2 <> EmptyString -> tokens s1 = tokens s2 ->
     parse_ports_input s1 = parse_ports_input s2).
  { intros s1 s2 H1 H2 Ht. rewrite !parse_ports_input_tokens by done.
    by rewrite Ht. }
  split; [exact Hgen|]. split; [|split; [|split]].
  - intros s Hne. split.
    + apply Hgen; [done|done|]. apply tokens_leading_comma.
    + apply Hgen; [apply append_comma_nonempty|done|].
      rewrite (tokens_app s EmptyString), tokens_empty. apply app_nil_r.
  - intros s1 s2. apply Hgen; try apply append_comma_nonempty.
    change (",," +:+ s2) with (String "," (String "," s2)).
    change ("," +:+ s2) with (String "," s2).
    by rewrite !tokens_app, tokens_leading_comma.
  - intros s Hne Ht. rewrite parse_ports_input_tokens, Ht by done.
    by vm_compute.
  - by vm_compute.
Qed.

(** C10 at [",22,,80,"], which parses as ["22,80"] does. *)
Lemma parse_ports_input_skips_empty_tokens_witness :
  (",22,,80," <> EmptyString /\ "22,80" <> EmptyString /\
   tokens ",22,,80," = tokens "22,80") /\
  parse_ports_input ",22,,80," = parse_ports_input "22,80".
Proof.
  assert (",22,,80," <> EmptyString) as H1 by discriminate.
  assert ("22,80" <> EmptyString) as H2 by discriminate.
  assert (tokens ",22,,80," = tokens "22,80") as H3 by (vm_compute; reflexivity).
  split; [by repeat split|].
  exact (proj1 parse_ports_input_skips_empty_tokens ",22,,80," "22,80" H1 H2 H3).
Defined.

(** ** Connect Probe *)

Lemma scan_port_returns (net : socket_api) (host_ip : string) (port : Z)
    (timeout : Q) :
  exists is_open : bool,
    scan_port net host_ip port timeout = Ok (port, is_open) /\
    (is_open = true <-> connection_succeeds net host_ip port timeout).
Proof.
  unfold scan_port, connection_succeeds, try_except, mbind, result_bind.
  destruct (socket_new net) as [[]|e1].
  2:{ exists false. split; [done|]. split; [done|]. by intros (? & _). }
  destruct (sock_settimeout net timeout) as [[]|e2].
  2:{ exists false. split; [done|]. split; [done|]. by intros (_ & ? & _). }
  destruct (sock_connect_ex net host_ip port) as [r|e3].
  2:{ exists false. split; [done|]. split; [done|]. by intros (_ & _ & ?). }
  exists (r =? 0). split; [done|]. rewrite Z.eqb_eq. split.
  - by intros ->.
  - by intros (_ & _ & [= ->]).
Qed.

(** C2.  For every answer of the operating system, [scan_port] returns a
    pair for the port it was given and raises nothing; the pair says
    open exactly when the socket was created, the timeout was set and
    [connect_ex] reported success, and says closed on every failure,
    whether reported as an error code or raised as an exception. *)
Theorem scan_port_total (net : socket_api) (host_ip : string) (port : Z)
    (timeout : Q) :
  exists is_open : bool,
    scan_port net host_ip port timeout = Ok (port, is_open) /\
    (is_open = true <-> connection_succeeds net host_ip port timeout) /\
    (is_open = false <-> ~ connection_succeeds net host_ip port timeout).
Proof.
  destruct (scan_port_returns net host_ip port timeout) as (b & Hret & Hb).
  exists b. split; [done|]. split; [done|].
  rewrite <- Hb. by destruct b.
Qed.

(** ** Completions arrive as a permutation of the submissions *)

Lemma as_completed_Permutation {A} (sched : list nat) (fs : list A) :
  as_completed sched fs ≡ₚ fs.
Proof.
  revert fs. induction sched as [|k sched IH]; intros fs; [done|].
  cbn [as_completed]. destruct (fs !! _) as [f|] eqn:E; [|done].
  rewrite IH. symmetry. by apply delete_Permutation.
Qed.

(** Every order of arrival is the choice of some schedule. *)
Lemma as_completed_any_order {A} (fs order : list A) :
  order ≡ₚ fs -> exists sched, as_completed sched fs = order.
Proof.
  revert fs. induction order as [|f order IH]; intros fs Hp.
  - apply Permutation_nil_l in Hp as ->. by exists [].
  - assert (f ∈ fs) as [i Hi]%list_elem_of_lookup.
    { rewrite <- Hp. by left. }
    destruct (IH (delete i fs)) as [sched Hs].
    { apply (Permutation_cons_inv (a := f)).
      rewrite Hp. by apply delete_Permutation. }
    exists (i :: sched). cbn [as_completed].
    pose proof (lookup_lt_Some _ _ _ Hi) as Hlt.
    rewrite Nat.mod_small by done. by rewrite Hi, Hs.
Qed.

(** ** The collection loop *)

(** Settles [fut_open f] or its negation from an equation on [fut_open f]. *)
Ltac by_open Ho :=
  simpl; rewrite Ho; simpl;
  first [exact I | reflexivity | discriminate | intros []].

Lemma collect_step_known (w : world) (target_ip : string)
    (fm : gmap nat Z) (st : scan_state) (f : future) :
  is_Some (fm !! fut_id f) ->
  collect_step w target_ip fm st f =
  inr {| open_ports := open_ports st ++
                       (if fut_open f then [port_of fm f] else []);
         results := results st ++
                    [outcome_row w target_ip fm (length (results st)) f];
         out := out st ++
                (if fut_open f then [Printed (MsgPortOpen (port_of fm f))] else []) |}.
Proof.
  intros [p Hp]. unfold collect_step, outcome_row, port_of, fut_open.
  rewrite Hp. destruct (fut_value f) as [[port [|]]|e]; simpl;
    by rewrite ?app_nil_r.
Qed.

Lemma collect_step_unknown (w : world) (target_ip : string)
    (fm : gmap nat Z) (st : scan_state) (f : future) :
  fm !! fut_id f = None ->
  collect_step w target_ip fm st f = inl KeyError.
Proof. intros Hp. unfold collect_step. by rewrite Hp. Qed.

Lemma collect_known (w : world) (target_ip : string) (fm : gmap nat Z)
    (fs : list future) (st : scan_state) :
  Forall (fun f => is_Some (fm !! fut_id f)) fs ->
  collect w target_ip fm st fs =
  ({| open_ports := open_ports st ++ (port_of fm <$> filter fut_open fs);
      results := results st ++
                 imap (fun j => outcome_row w target_ip fm (length (results st) + j)) fs;
      out := out st ++
             ((fun f => Printed (MsgPortOpen (port_of fm f))) <$> filter fut_open fs) |},
   None).
Proof.
  intros Hall. revert st.
  induction Hall as [|f fs Hf Hall IH]; intros st.
  - simpl. rewrite !app_nil_r. by destruct st.
  - cbn [collect]. rewrite collect_step_known by done. rewrite IH.
    cbn [open_ports results out imap].
    assert (imap (fun j => outcome_row w target_ip fm
                    (length (results st ++
                       [outcome_row w target_ip fm (length (results st)) f]) + j)) fs =
            imap ((fun j => outcome_row w target_ip fm (length (results st) + j)) ∘ S) fs)
      as ->.
    { apply imap_ext. intros j x _. simpl. f_equal.
      rewrite length_app. simpl. lia. }
    rewrite Nat.add_0_r, <- !(assoc_L (++)).
    destruct (fut_open f) eqn:Ho.
    + rewrite filter_cons_True by by_open Ho. done.
    + rewrite filter_cons_False by by_open Ho. done.
Qed.

(** The open-port list is the projection of the outcome sequence. *)
Lemma open_of_outcome_rows (w : world) (target_ip : string) (fm : gmap nat Z)
    (fs : list future) (n : nat) :
  open_of (imap (fun j => outcome_row w target_ip fm (n + j)) fs) =
  port_of fm <$> filter fut_open fs.
Proof.
  unfold open_of. revert n. induction fs as [|f fs IH]; intros n; [done|].
  cbn [imap]. specialize (IH (S n)).
  assert (imap ((fun j => outcome_row w target_ip fm (n + j)) ∘ S) fs =
          imap (fun j => outcome_row w target_ip fm (S n + j)) fs) as ->.
  { apply imap_ext. intros j x _. simpl. f_equal. lia. }
  destruct (fut_open f) eqn:Ho.
  - rewrite (filter_cons_True _ f fs) by by_open Ho.
    rewrite filter_cons_True by by_open Ho.
    cbn [fmap list_fmap]. f_equal. exact IH.
  - rewrite (filter_cons_False _ f fs) by by_open Ho.
    rewrite filter_cons_False by by_open Ho.
    exact IH.
Qed.

Lemma row_port_outcome_rows (w : world) (target_ip : string) (fm : gmap nat Z)
    (fs : list future) (n : nat) :
  row_port <$> imap (fun j => outcome_row w target_ip fm (n + j)) fs =
  port_of fm <$> fs.
Proof.
  revert n. induction fs as [|f fs IH]; intros n; [done|].
  cbn [imap fmap list_fmap]. f_equal. rewrite <- (IH (S n)).
  f_equal. apply imap_ext. intros j x _. simpl. f_equal. lia.
Qed.

Lemma take_imap {A B} (g : nat -> A -> B) (l : list A) (k : nat) :
  take k (imap g l) = imap g (take k l).
Proof.
  revert g k. induction l as [|x l IH]; intros g [|k]; try done.
  cbn [imap take]. by rewrite IH.
Qed.

(** ** Submission *)

Lemma submit_all_ids (w : world) (target_ip : string) (timeout : Q)
    (ports : list Z) :
  fut_id <$> (submit_all w target_ip timeout ports).1 = seq 0 (length ports).
Proof.
  cbn [submit_all fst]. apply list_eq. intros i.
  rewrite list_lookup_fmap, list_lookup_imap.
  destruct (ports !! i) as [p|] eqn:E; simpl.
  - symmetry. apply lookup_seq. split; [done|]. by eapply lookup_lt_Some.
  - symmetry. apply lookup_seq_ge. by apply lookup_ge_None.
Qed.

Lemma zip_seq_lookup (l : list Z) (k i : nat) :
  (list_to_map (zip (seq k (length l)) l) : gmap nat Z) !! (k + i)%nat = l !! i.
Proof.
  revert k i. induction l as [|x l IH]; intros k i; [done|].
  cbn [length seq zip zip_with list_to_map foldr uncurry fst snd].
  destruct i as [|i].
  - rewrite Nat.add_0_r. apply lookup_insert_eq.
  - rewrite lookup_insert_ne by lia.
    replace (k + S i)%nat with (S k + i)%nat by lia. apply IH.
Qed.

Lemma future_map_lookup (w : world) (target_ip : string) (timeout : Q)
    (ports : list Z) (i : nat) :
  (submit_all w target_ip timeout ports).2 !! i = ports !! i.
Proof.
  unfold submit_all. cbn [snd].
  pose proof (submit_all_ids w target_ip timeout ports) as Hids.
  cbn [submit_all fst] in Hids. rewrite Hids.
  apply (zip_seq_lookup ports 0 i).
Qed.

Lemma futures_inv (w : world) (target_ip : string) (timeout : Q)
    (ports : list Z) (f : future) :
  f ∈ (submit_all w target_ip timeout ports).1 ->
  exists i p, ports !! i = Some p /\ fut_id f = i /\
    (submit_all w target_ip timeout ports).2 !! fut_id f = Some p /\
    exists b, fut_value f = Ok (p, b).
Proof.
  cbn [submit_all fst]. intros (i & p & -> & Hp)%elem_of_lookup_imap.
  exists i, p. split; [done|]. split; [done|]. split.
  - cbn [ex_submit fut_id]. by rewrite future_map_lookup.
  - destruct (scan_port_returns (w_net w i) target_ip p timeout) as (b & Hb & _).
    by exists b.
Qed.

Lemma futures_known (w : world) (target_ip : string) (timeout : Q)
    (ports : list Z) :
  Forall (fun f => is_Some ((submit_all w target_ip timeout ports).2 !! fut_id f))
         (submit_all w target_ip timeout ports).1.
Proof.
  apply Forall_forall. intros f (i & p & _ & _ & Hp & _)%futures_inv. eauto.
Qed.

Lemma port_of_futures (w : world) (target_ip : string) (timeout : Q)
    (ports : list Z) :
  port_of (submit_all w target_ip timeout ports).2
    <$> (submit_all w target_ip timeout ports).1 = ports.
Proof.
  apply list_eq. intros i. rewrite list_lookup_fmap.
  cbn [submit_all fst]. rewrite list_lookup_imap.
  destruct (ports !! i) as [p|] eqn:E; [|done]. simpl. f_equal.
  unfold port_of. cbn [ex_submit fut_value].
  destruct (scan_port_returns (w_net w i) target_ip p timeout) as (b & -> & _).
  done.
Qed.

Lemma arrivals_known (w : world) (target_ip : string) (timeout : Q)
    (ports : list Z) :
  Forall (fun f => is_Some ((submit_all w target_ip timeout ports).2 !! fut_id f))
         (arrivals_of w target_ip timeout ports).
Proof.
  unfold arrivals_of. rewrite as_completed_Permutation. apply futures_known.
Qed.

Lemma arrivals_ports (w : world) (target_ip : string) (timeout : Q)
    (ports : list Z) :
  port_of (submit_all w target_ip timeout ports).2
    <$> arrivals_of w target_ip timeout ports ≡ₚ ports.
Proof.
  unfold arrivals_of. rewrite as_completed_Permutation.
  by rewrite port_of_futures.
Qed.

(** ** [run_scan] in closed form *)

Section Run.
Variables (w : world) (target_ip : string) (ports : list Z)
          (threads : Z) (timeout : Q) (save_path : option string).

Local Abbreviation fm := ((submit_all w target_ip timeout ports).2).
Local Abbreviation arr := (arrivals_of w target_ip timeout ports).
Local Abbreviation start :=
  [Printed (MsgStarting target_ip (Z.of_nat (length ports)) threads timeout);
   PoolCreate (max_workers threads ports)].

Lemma run_scan_complete :
  ports <> [] -> w_interrupt w = None ->
  run_scan w target_ip ports threads timeout save_path =
  {| rr_return := inr (port_of fm <$> filter fut_open arr);
     rr_results := imap (outcome_row w target_ip fm) arr;
     rr_trace :=
       (start ++ (Submit <$> ports) ++
        ((fun f => Printed (MsgPortOpen (port_of fm f))) <$> filter fut_open arr)) ++
       [PoolShutdown; Printed MsgScanComplete;
        Printed (MsgOpenPorts (port_of fm <$> filter fut_open arr));
        Printed MsgElapsed] ++
       save_results w save_path (imap (outcome_row w target_ip fm) arr) |}.
Proof.
  intros Hne Hint. unfold run_scan. case_decide; [done|]. rewrite Hint.
  pose proof (arrivals_known w target_ip timeout ports) as Hk.
  unfold arrivals_of in *.
  destruct (submit_all w target_ip timeout ports) as [futures fmap0].
  cbn [fst snd] in *. rewrite collect_known by done.
  cbn [open_ports results out app length]. by rewrite <- !(assoc_L (++)).
Qed.

Lemma collect_cut_known (fm0 : gmap nat Z) (st : scan_state) (f : future)
    (pt : body_point) :
  is_Some (fm0 !! fut_id f) ->
  collect_cut fm0 st f pt =
  inr {| open_ports := open_ports st ++ cut_open fm0 pt (Some f);
         results := results st;
         out := out st ++ cut_printed fm0 pt (Some f) |}.
Proof.
  intros [p Hp]. unfold collect_cut, cut_open, cut_printed, port_of, fut_open.
  rewrite Hp.
  destruct pt, st as [o r t], (fut_value f) as [[port [|]]|e]; simpl;
    by rewrite ?app_nil_r.
Qed.

Lemma run_scan_interrupted (k : nat) (pt : body_point) :
  ports <> [] -> w_interrupt w = Some (DuringCollect k pt) ->
  run_scan w target_ip ports threads timeout save_path =
  {| rr_return := inr ((port_of fm <$> filter fut_open (take k arr)) ++
                       cut_open fm pt (arr !! k));
     rr_results := imap (outcome_row w target_ip fm) (take k arr);
     rr_trace :=
       (start ++ (Submit <$> ports) ++
        ((fun f => Printed (MsgPortOpen (port_of fm f)))
           <$> filter fut_open (take k arr)) ++
        cut_printed fm pt (arr !! k)) ++
       [Printed MsgInterrupted; PoolShutdown] |}.
Proof.
  intros Hne Hint. unfold run_scan. case_decide; [done|]. rewrite Hint.
  pose proof (arrivals_known w target_ip timeout ports) as Hk.
  unfold arrivals_of in *.
  destruct (submit_all w target_ip timeout ports) as [futures fmap0].
  cbn [fst snd] in *. rewrite collect_known by by apply Forall_take.
  destruct (as_completed (w_arrival w) futures !! k) as [f|] eqn:Hf.
  - rewrite collect_cut_known
      by (eapply (proj1 (Forall_forall _ _) Hk), list_elem_of_lookup_2, Hf).
    cbn [open_ports results out app length rr_return rr_results rr_trace].
    by rewrite <- !(assoc_L (++)).
  - assert (forall pt', cut_open fmap0 pt' None = []) as -> by by intros [].
    assert (forall pt', cut_printed fmap0 pt' None = []) as -> by by intros [].
    cbn [open_ports results out app length]. rewrite !app_nil_r.
    by rewrite <- !(assoc_L (++)).
Qed.

Lemma run_scan_interrupted_after (j : nat) :
  ports <> [] -> w_interrupt w = Some (AfterCollect j) ->
  run_scan w target_ip ports threads timeout save_path =
  {| rr_return := inl KeyboardInterrupt;
     rr_results := imap (outcome_row w target_ip fm) arr;
     rr_trace :=
       (start ++ (Submit <$> ports) ++
        ((fun f => Printed (MsgPortOpen (port_of fm f))) <$> filter fut_open arr)) ++
       [PoolShutdown] ++
       take j ([Printed MsgScanComplete;
                Printed (MsgOpenPorts (port_of fm <$> filter fut_open arr));
                Printed MsgElapsed] ++
               save_results w save_path (imap (outcome_row w target_ip fm) arr)) |}.
Proof.
  intros Hne Hint. unfold run_scan. case_decide; [done|]. rewrite Hint.
  pose proof (arrivals_known w target_ip timeout ports) as Hk.
  unfold arrivals_of in *.
  destruct (submit_all w target_ip timeout ports) as [futures fmap0].
  cbn [fst snd] in *. rewrite collect_known by done.
  cbn [open_ports results out app length]. by rewrite <- !(assoc_L (++)).
Qed.

Lemma run_scan_interrupted_write :
  ports <> [] -> w_interrupt w = Some DuringWrite ->
  run_scan w target_ip ports threads timeout save_path =
  {| rr_return := inl KeyboardInterrupt;
     rr_results := imap (outcome_row w target_ip fm) arr;
     rr_trace :=
       (start ++ (Submit <$> ports) ++
        ((fun f => Printed (MsgPortOpen (port_of fm f))) <$> filter fut_open arr)) ++
       [PoolShutdown] ++
       [Printed MsgScanComplete;
        Printed (MsgOpenPorts (port_of fm <$> filter fut_open arr));
        Printed MsgElapsed] ++
       save_cut save_path |}.
Proof.
  intros Hne Hint. unfold run_scan. case_decide; [done|]. rewrite Hint.
  pose proof (arrivals_known w target_ip timeout ports) as Hk.
  unfold arrivals_of in *.
  destruct (submit_all w target_ip timeout ports) as [futures fmap0].
  cbn [fst snd] in *. rewrite collect_known by done.
  cbn [open_ports results out app length]. by rewrite <- !(assoc_L (++)).
Qed.

Lemma run_scan_interrupted_submit (k : nat) :
  ports <> [] -> w_interrupt w = Some (DuringSubmit k) ->
  run_scan w target_ip ports threads timeout save_path =
  {| rr_return := inl KeyboardInterrupt;
     rr_results := [];
     rr_trace := start ++ (Submit <$> take k ports) ++ [PoolShutdown] |}.
Proof.
  intros Hne Hint. unfold run_scan. case_decide; [done|]. by rewrite Hint.
Qed.

Lemma run_scan_empty :
  ports = [] ->
  run_scan w target_ip ports threads timeout save_path =
  {| rr_return := inr []; rr_results := []; rr_trace := [Printed MsgNoPorts] |}.
Proof. intros ->. reflexivity. Qed.
End Run.

(** ** The worker pool never runs more tasks than its bound *)

Lemma pool_step_in_flight (bound : Z) (s s' : pool) :
  pool_step bound s s' ->
  Z.of_nat (length (in_flight s)) <= bound ->
  Z.of_nat (length (in_flight s')) <= bound.
Proof.
  destruct 1; cbn [in_flight]; rewrite ?length_app; cbn [length]; lia.
Qed.

Lemma pool_run_in_flight (bound : Z) (s s' : pool) :
  rtc (pool_step bound) s s' ->
  Z.of_nat (length (in_flight s)) <= bound ->
  Z.of_nat (length (in_flight s')) <= bound.
Proof.
  induction 1 as [|s1 s2 s3 Hstep _ IH]; [done|].
  intros H. apply IH. by eapply pool_step_in_flight.
Qed.

(** No task is lost and none is duplicated on its way through the pool. *)
Lemma pool_step_conserves (bound : Z) (s s' : pool) :
  pool_step bound s s' ->
  unsubmitted s' ++ queued s' ++ in_flight s' ++ completed s' ≡ₚ
  unsubmitted s ++ queued s ++ in_flight s ++ completed s.
Proof.
  destruct 1; cbn [unsubmitted queued in_flight completed].
  - rewrite <- !(assoc_L (++)). cbn [app].
    by rewrite <- (Permutation_middle q), <- (Permutation_middle todo).
  - rewrite <- !(assoc_L (++)). cbn [app].
    by rewrite <- (Permutation_middle r), <- (Permutation_middle q).
  - rewrite <- !(assoc_L (++)). cbn [app].
    by rewrite <- (Permutation_cons_append d), <- (Permutation_middle r2).
Qed.

Lemma pool_run_conserves (bound : Z) (ports : list Z) (s : pool) :
  rtc (pool_step bound) (pool_init ports) s ->
  unsubmitted s ++ queued s ++ in_flight s ++ completed s ≡ₚ
  seq 0 (length ports).
Proof.
  revert s. apply rtc_ind_r.
  - unfold pool_init. cbn [unsubmitted queued in_flight completed].
    by rewrite !app_nil_r.
  - intros s1 s2 _ Hstep IH. by rewrite (pool_step_conserves _ _ _ Hstep).
Qed.

Lemma max_workers_min (threads : Z) (ports : list Z) :
  1 <= threads ->
  max_workers threads ports = Z.min threads (Z.of_nat (length ports)).
Proof. intros H. unfold max_workers. by rewrite Z.max_r. Qed.

Lemma run_scan_creates_pool (w : world) (target_ip : string) (ports : list Z)
    (threads : Z) (timeout : Q) (save_path : option string) :
  ports <> [] ->
  rr_trace (run_scan w target_ip ports threads timeout save_path) !! 1%nat =
  Some (PoolCreate (max_workers threads ports)).
Proof.
  intros Hne. destruct (w_interrupt w) as [[k|k pt|j|]|] eqn:Hi.
  - by rewrite run_scan_interrupted_submit with (k := k).
  - by rewrite run_scan_interrupted with (k := k) (pt := pt).
  - by rewrite run_scan_interrupted_after with (j := j).
  - by rewrite run_scan_interrupted_write.
  - by rewrite run_scan_complete.
Qed.

(** ** Scan Engine: the claims *)

(** C5.  With at least one thread configured and at least one port, the
    pool [run_scan] creates is bounded by [min(threads, len(ports))],
    and in every state such a pool reaches from its creation the number
    of probes in flight is at most that bound. *)
Theorem worker_pool_bound (w : world) (target_ip : string) (ports : list Z)
    (threads : Z) (timeout : Q) (save_path : option string) :
  1 <= threads -> ports <> [] ->
  let bound := Z.min threads (Z.of_nat (length ports)) in
  max_workers threads ports = bound /\
  PoolCreate bound ∈ rr_trace (run_scan w target_ip ports threads timeout save_path) /\
  forall s : pool,
    rtc (pool_step (max_workers threads ports)) (pool_init ports) s ->
    Z.of_nat (length (in_flight s)) <= bound.
Proof.
  intros Hthreads Hne bound.
  pose proof (max_workers_min threads ports Hthreads) as Hmw.
  split; [done|]. split.
  - apply list_elem_of_lookup. exists 1%nat.
    rewrite run_scan_creates_pool by done. by rewrite Hmw.
  - intros s Hrun. subst bound. rewrite <- Hmw.
    eapply pool_run_in_flight; [exact Hrun|].
    cbn [pool_init in_flight length]. rewrite Hmw.
    destruct ports; [done|]. cbn [length]. lia.
Qed.

(** C5 at two threads and three ports, in the state where two probes
    run and the third waits to be submitted. *)
Lemma worker_pool_bound_witness :
  let s := {| unsubmitted := [2%nat]; queued := []; in_flight := [0%nat; 1%nat];
              completed := [] |} in
  (1 <= 2 /\ [21; 22; 80] <> [] /\
   rtc (pool_step (max_workers 2 [21; 22; 80])) (pool_init [21; 22; 80]) s) /\
  max_workers 2 [21; 22; 80] = 2 /\
  PoolCreate 2 ∈ rr_trace (run_scan (demo_world (fun _ => all_open) [] None) "10.0.0.1"
                             [21; 22; 80] 2 1%Q None) /\
  Z.of_nat (length (in_flight s)) <= 2.
Proof.
  intros s.
  assert (1 <= 2) as H1 by lia.
  assert ([21; 22; 80] <> []) as H2 by discriminate.
  assert (rtc (pool_step (max_workers 2 [21; 22; 80])) (pool_init [21; 22; 80]) s)
    as H3.
  { eapply rtc_l; [apply pool_submit|].
    eapply rtc_l; [apply (pool_start _ 0%nat); vm_compute; reflexivity|].
    eapply rtc_l; [apply pool_submit|].
    eapply rtc_l; [apply (pool_start _ 1%nat _ _ [0%nat]); vm_compute; reflexivity|].
    apply rtc_refl. }
  split; [by repeat split|].
  destruct (worker_pool_bound (demo_world (fun _ => all_open) [] None) "10.0.0.1" [21; 22; 80] 2
              1%Q None H1 H2) as (Hmw & Hin & Hbound).
  split; [exact Hmw|]. split; [exact Hin|]. exact (Hbound s H3).
Defined.

(** C6.  With no ports [run_scan] returns the empty list at once: it
    prints one line, records no outcome, creates no pool and submits no
    probe. *)
Theorem run_scan_no_ports (w : world) (target_ip : string) (threads : Z)
    (timeout : Q) (save_path : option string) :
  let r := run_scan w target_ip [] threads timeout save_path in
  rr_return r = inr [] /\ rr_results r = [] /\
  rr_trace r = [Printed MsgNoPorts] /\
  (forall bound, PoolCreate bound ∉ rr_trace r) /\
  (forall port, Submit port ∉ rr_trace r).
Proof.
  cbn. repeat split; try done.
  - intros bound [=]%list_elem_of_singleton.
  - intros port [=]%list_elem_of_singleton.
Qed.

(** C7.  In a scan that nothing interrupts, [run_scan] returns, and the
    ports of the outcome sequence are the submitted ports in some order:
    one outcome for each port, none lost and, the ports being distinct,
    none twice. *)
Theorem every_port_one_outcome (w : world) (target_ip : string)
    (ports : list Z) (threads : Z) (timeout : Q) (save_path : option string) :
  w_interrupt w = None ->
  let r := run_scan w target_ip ports threads timeout save_path in
  (exists opened, rr_return r = inr opened) /\
  row_port <$> rr_results r ≡ₚ ports /\
  length (rr_results r) = length ports /\
  (NoDup ports -> NoDup (row_port <$> rr_results r)).
Proof.
  intros Hint r.
  assert (row_port <$> rr_results r ≡ₚ ports) as Hperm.
  { subst r. destruct (decide (ports = [])) as [->|Hne]; [done|].
    rewrite run_scan_complete by done. cbn [rr_results].
    rewrite (row_port_outcome_rows _ _ _ _ 0). apply arrivals_ports. }
  split; [|split; [done|split]].
  - subst r. destruct (decide (ports = [])) as [->|Hne]; [by eexists|].
    rewrite run_scan_complete by done. by eexists.
  - rewrite <- (length_fmap row_port). by apply Permutation_length.
  - intros Hnd. by rewrite Hperm.
Qed.

(** C7 at three ports whose probes complete in the order 80, 21, 22. *)
Lemma every_port_one_outcome_witness :
  let r := run_scan (demo_world (fun _ => all_open) [2%nat; 0%nat] None) "10.0.0.1" [21; 22; 80]
             4 1%Q None in
  w_interrupt (demo_world (fun _ => all_open) [2%nat; 0%nat] None) = None /\
  (exists opened, rr_return r = inr opened) /\
  row_port <$> rr_results r ≡ₚ [21; 22; 80] /\
  length (rr_results r) = length [21; 22; 80] /\
  (NoDup [21; 22; 80] -> NoDup (row_port <$> rr_results r)).
Proof.
  intros r. split; [reflexivity|].
  apply (every_port_one_outcome (demo_world (fun _ => all_open) [2%nat; 0%nat] None)).
  reflexivity.
Defined.

Lemma merge_sort_perm (l1 l2 : list Z) :
  l1 ≡ₚ l2 -> merge_sort Z.le l1 = merge_sort Z.le l2.
Proof.
  intros Hp. apply (Sorted_unique Z.le).
  - apply (Sorted_merge_sort Z.le).
  - apply (Sorted_merge_sort Z.le).
  - by rewrite !merge_sort_Permutation.
Qed.

Lemma sorted_open_perm (rows rows' : list row) :
  open_of rows ≡ₚ open_of rows' -> sorted_open rows = sorted_open rows'.
Proof.
  intros Hp. unfold sorted_open. f_equal. by apply list_to_set_perm_L.
Qed.

Lemma sorted_open_NoDup (rows : list row) :
  NoDup (open_of rows) -> merge_sort Z.le (open_of rows) = sorted_open rows.
Proof.
  intros Hnd. unfold sorted_open, sorted. apply merge_sort_perm.
  symmetry. by apply elements_list_to_set.
Qed.

Lemma NoDup_fmap_filter {A B} (g : A -> B) (P : A -> Prop)
    `{forall x, Decision (P x)} (l : list A) :
  NoDup (g <$> l) -> NoDup (g <$> filter P l).
Proof.
  intros Hnd. eapply sublist_NoDup; [exact Hnd|].
  apply fmap_sublist, sublist_filter.
Qed.

(** C1, as the code has it.  In a scan that nothing interrupts,
    [run_scan] returns the ports whose outcome is open, in the order of
    the outcome sequence.  Another order of arrival gives a permutation
    of that list and the same sorted set of open ports; when the ports
    are distinct, sorting the returned list gives that sorted set. *)
Theorem open_ports_follow_arrival (w : world) (target_ip : string)
    (ports : list Z) (threads : Z) (timeout : Q) (save_path : option string) :
  w_interrupt w = None ->
  let r := run_scan w target_ip ports threads timeout save_path in
  exists opened : list Z,
    rr_return r = inr opened /\
    opened = open_of (rr_results r) /\
    (forall sched : list nat,
       let r' := run_scan (with_arrival w sched) target_ip ports threads
                   timeout save_path in
       exists opened' : list Z,
         rr_return r' = inr opened' /\ opened' ≡ₚ opened /\
         sorted_open (rr_results r') = sorted_open (rr_results r)) /\
    (NoDup ports -> merge_sort Z.le opened = sorted_open (rr_results r)).
Proof.
  intros Hint r. subst r.
  destruct (decide (ports = [])) as [->|Hne].
  { exists []. repeat split; try done. intros sched. by exists []. }
  rewrite run_scan_complete by done. cbn [rr_return rr_results].
  set (fm := (submit_all w target_ip timeout ports).2).
  set (arr := arrivals_of w target_ip timeout ports).
  assert (open_of (imap (outcome_row w target_ip fm) arr) =
          port_of fm <$> filter fut_open arr) as Hopen
    by apply (open_of_outcome_rows _ _ _ _ 0).
  eexists. split; [done|]. split; [by rewrite Hopen|]. split.
  - intros sched.
    rewrite (run_scan_complete (with_arrival w sched)) by done.
    cbn [rr_return rr_results]. eexists. split; [done|].
    change (submit_all (with_arrival w sched) target_ip timeout ports)
      with (submit_all w target_ip timeout ports).
    fold fm.
    assert (arrivals_of (with_arrival w sched) target_ip timeout ports ≡ₚ arr)
      as Harr.
    { unfold arr, arrivals_of. by rewrite !as_completed_Permutation. }
    assert (port_of fm <$>
              filter fut_open (arrivals_of (with_arrival w sched) target_ip timeout ports)
            ≡ₚ port_of fm <$> filter fut_open arr) as Hp by by rewrite Harr.
    split; [exact Hp|].
    apply sorted_open_perm.
    rewrite Hopen.
    change (imap (outcome_row (with_arrival w sched) target_ip fm)
              (arrivals_of (with_arrival w sched) target_ip timeout ports))
      with (imap (fun j => outcome_row (with_arrival w sched) target_ip fm (0 + j))
              (arrivals_of (with_arrival w sched) target_ip timeout ports)).
    by rewrite open_of_outcome_rows.
  - intros Hnd. rewrite <- Hopen. apply sorted_open_NoDup. rewrite Hopen.
    apply NoDup_fmap_filter. unfold fm, arr. by rewrite arrivals_ports.
Qed.

(** C1, as the code has it, at two open ports completing in reverse
    order. *)
Lemma open_ports_follow_arrival_witness :
  let w := demo_world (fun _ => all_open) [1%nat] None in
  let r := run_scan w "10.0.0.1" [22; 443] 100 1%Q None in
  w_interrupt w = None /\
  exists opened : list Z,
    rr_return r = inr opened /\
    opened = open_of (rr_results r) /\
    (forall sched : list nat,
       let r' := run_scan (with_arrival w sched) "10.0.0.1" [22; 443] 100
                   1%Q None in
       exists opened' : list Z,
         rr_return r' = inr opened' /\ opened' ≡ₚ opened /\
         sorted_open (rr_results r') = sorted_open (rr_results r)) /\
    (NoDup [22; 443] -> merge_sort Z.le opened = sorted_open (rr_results r)).
Proof.
  intros w r. split; [reflexivity|].
  apply (open_ports_follow_arrival w "10.0.0.1" [22; 443] 100 1%Q None).
  reflexivity.
Defined.

(** C1, as the specification has it, fails: of the ports 21, 22, 80 and
    443 let 22 and 443 be open and let the probe of 443 complete first;
    [run_scan] returns [[443, 22]], which is not the sorted set
    [[22, 443]] of the open ports of its outcomes. *)
Lemma open_ports_not_sorted :
  let w := demo_world demo_net [3%nat] None in
  let r := run_scan w "10.0.0.1" [21; 22; 80; 443] 100 1%Q None in
  w_interrupt w = None /\
  rr_return r = inr [443; 22] /\
  sorted_open (rr_results r) = [22; 443] /\
  rr_return r <> inr (sorted_open (rr_results r)).
Proof.
  intros w r. split; [reflexivity|]. split; [by vm_compute|].
  split; [by vm_compute|]. vm_compute. discriminate.
Qed.

Lemma open_ports_take_S (fm : gmap nat Z) (arr : list future) (k : nat) :
  port_of fm <$> filter fut_open (take (S k) arr) =
  (port_of fm <$> filter fut_open (take k arr)) ++
  cut_open fm AfterAppend (arr !! k).
Proof.
  destruct (arr !! k) as [f|] eqn:Hf.
  - rewrite (take_S_r _ _ _ Hf), filter_app, fmap_app. f_equal.
    cbn [cut_open]. destruct (fut_open f) eqn:Ho.
    + by rewrite filter_cons_True by by_open Ho.
    + by rewrite filter_cons_False by by_open Ho.
  - apply lookup_ge_None in Hf.
    rewrite !take_ge by lia. cbn [cut_open]. by rewrite app_nil_r.
Qed.

Lemma cut_printed_open (fm : gmap nat Z) (pt : body_point) (f : option future) :
  pt <> BeforeOutcome ->
  cut_printed fm pt f =
  (fun p => Printed (MsgPortOpen p)) <$> cut_open fm AfterAppend f.
Proof.
  intros Hpt. destruct pt, f as [f|]; try done;
    cbn [cut_printed cut_open]; by destruct (fut_open f).
Qed.

(** C8, as the code has it.  A [KeyboardInterrupt] that arrives inside
    the [try], after [k] whole turns of the collection loop and at any
    point [pt] of the next, ends [run_scan] with a return, not with an
    exception.  The outcomes it holds are the first [k] outcomes of the
    scan left alone.  The list it returns holds the open ports among
    them, and one port more when the interrupt came between
    [open_ports.append] and [results.append] of an open port: that port
    is returned although its outcome was not recorded.  By then every
    probe had been submitted, so the interrupt stops no submission; what
    follows it is the notice and the shutdown of the pool.  At any other
    point, during submission or after the loop, the interrupt leaves
    [run_scan] as an exception. *)
Theorem interrupt_returns_partial (w : world) (target_ip : string)
    (ports : list Z) (threads : Z) (timeout : Q) (save_path : option string)
    (i : interrupt) :
  ports <> [] -> w_interrupt w = Some i ->
  let r := run_scan w target_ip ports threads timeout save_path in
  let full := run_scan (with_interrupt w None) target_ip ports threads
                timeout save_path in
  match i with
  | DuringCollect k pt =>
      rr_results r = take k (rr_results full) /\
      rr_return r = inr (open_of (take (turns_appended k pt) (rr_results full))) /\
      (pt <> AfterAppend -> rr_return r = inr (open_of (rr_results r))) /\
      rr_trace r =
        [Printed (MsgStarting target_ip (Z.of_nat (length ports)) threads timeout);
         PoolCreate (max_workers threads ports)] ++
        (Submit <$> ports) ++
        ((fun p => Printed (MsgPortOpen p))
           <$> open_of (take (turns_printed k pt) (rr_results full))) ++
        [Printed MsgInterrupted; PoolShutdown]
  | _ => rr_return r = inl KeyboardInterrupt
  end.
Proof.
  intros Hne Hint r full. subst r full.
  destruct i as [k|k pt|j|].
  { by rewrite run_scan_interrupted_submit with (k := k). }
  2:{ by rewrite run_scan_interrupted_after with (j := j). }
  2:{ by rewrite run_scan_interrupted_write. }
  rewrite (run_scan_interrupted w) with (k := k) (pt := pt) by done.
  rewrite (run_scan_complete (with_interrupt w None)) by done.
  cbn [rr_return rr_results rr_trace].
  change (submit_all (with_interrupt w None) target_ip timeout ports)
    with (submit_all w target_ip timeout ports).
  change (arrivals_of (with_interrupt w None) target_ip timeout ports)
    with (arrivals_of w target_ip timeout ports).
  set (fm := (submit_all w target_ip timeout ports).2).
  set (arr := arrivals_of w target_ip timeout ports).
  change (outcome_row (with_interrupt w None)) with (outcome_row w).
  assert (forall n, open_of (take n (imap (outcome_row w target_ip fm) arr)) =
                    port_of fm <$> filter fut_open (take n arr)) as Hopen.
  { intros n. rewrite take_imap. apply (open_of_outcome_rows _ _ _ _ 0). }
  split; [symmetry; apply take_imap|].
  split; [|split].
  - rewrite Hopen. f_equal. destruct pt; cbn [turns_appended].
    + destruct (arr !! k); cbn [cut_open]; by rewrite app_nil_r.
    + destruct (arr !! k); cbn [cut_open]; by rewrite app_nil_r.
    + by rewrite open_ports_take_S.
  - intros Hpt. rewrite (open_of_outcome_rows _ _ _ _ 0). f_equal.
    destruct pt; [| |done]; destruct (arr !! k); cbn [cut_open];
      by rewrite app_nil_r.
  - assert (((fun f => Printed (MsgPortOpen (port_of fm f)))
               <$> filter fut_open (take k arr)) ++
            cut_printed fm pt (arr !! k) =
            (fun p => Printed (MsgPortOpen p)) <$>
              (port_of fm <$> filter fut_open (take (turns_printed k pt) arr)))
      as Hprint.
    { destruct pt; cbn [turns_printed].
      - rewrite <- list_fmap_compose.
        destruct (arr !! k); cbn [cut_printed]; by rewrite app_nil_r.
      - rewrite open_ports_take_S, fmap_app, <- list_fmap_compose.
        by rewrite cut_printed_open.
      - rewrite open_ports_take_S, fmap_app, <- list_fmap_compose.
        by rewrite cut_printed_open. }
    rewrite Hopen, <- Hprint. by rewrite <- !(assoc_L (++)).
Qed.

(** C8, as the code has it, at an interrupt in the first turn of a scan
    of four ports, between [open_ports.append] and [results.append]:
    port 443 is returned and no outcome is held. *)
Lemma interrupt_returns_partial_witness :
  let w := demo_world demo_net [3%nat]
             (Some (DuringCollect 0 AfterAppend)) in
  let r := run_scan w "10.0.0.1" [21; 22; 80; 443] 100 1%Q None in
  let full := run_scan (with_interrupt w None) "10.0.0.1" [21; 22; 80; 443]
                100 1%Q None in
  ([21; 22; 80; 443] <> [] /\
   w_interrupt w = Some (DuringCollect 0 AfterAppend)) /\
  (rr_return r = inr [443] /\ rr_results r = []) /\
  rr_results r = take 0 (rr_results full) /\
  rr_return r = inr (open_of (take 1 (rr_results full))) /\
  (AfterAppend <> AfterAppend -> rr_return r = inr (open_of (rr_results r))) /\
  rr_trace r =
    [Printed (MsgStarting "10.0.0.1" 4 100 1%Q); PoolCreate 4] ++
    (Submit <$> [21; 22; 80; 443]) ++
    ((fun p => Printed (MsgPortOpen p))
       <$> open_of (take 1 (rr_results full))) ++
    [Printed MsgInterrupted; PoolShutdown].
Proof.
  intros w r full.
  assert ([21; 22; 80; 443] <> []) as H1 by discriminate.
  assert (w_interrupt w = Some (DuringCollect 0 AfterAppend)) as H2
    by reflexivity.
  split; [by split|]. split; [by vm_compute|].
  exact (interrupt_returns_partial w "10.0.0.1" [21; 22; 80; 443] 100 1%Q None
           (DuringCollect 0 AfterAppend) H1 H2).
Defined.

(** An interrupt after the first of two completions, between two turns:
    the list returned is the open ports of the one outcome held. *)
Example interrupt_between_turns :
  let w := demo_world (fun _ => all_open) [1%nat]
             (Some (DuringCollect 1 BeforeOutcome)) in
  let r := run_scan w "10.0.0.1" [22; 443] 100 1%Q (Some "scan.json") in
  rr_return r = inr [443] /\ open_of (rr_results r) = [443] /\
  rr_trace r =
    [Printed (MsgStarting "10.0.0.1" 2 100 1%Q); PoolCreate 2;
     Submit 22; Submit 443; Printed (MsgPortOpen 443);
     Printed MsgInterrupted; PoolShutdown].
Proof. intros w r. by vm_compute. Qed.

(** C8, as the specification has it, fails in two ways.  A
    [KeyboardInterrupt] that arrives while the probes are being
    submitted is outside the [try] block, so it leaves [run_scan] as an
    exception and no list is returned.  And one that arrives between
    [open_ports.append] and [results.append] makes [run_scan] return a
    port whose outcome is not among those collected. *)
Lemma interrupt_during_submit_raises :
  let w := demo_world (fun _ => all_open) [] (Some (DuringSubmit 1)) in
  let r := run_scan w "10.0.0.1" [80; 443] 100 1%Q None in
  let w' := demo_world demo_net [3%nat] (Some (DuringCollect 0 AfterAppend)) in
  let r' := run_scan w' "10.0.0.1" [21; 22; 80; 443] 100 1%Q None in
  (w_interrupt w = Some (DuringSubmit 1) /\
   rr_return r = inl KeyboardInterrupt /\
   (forall opened : list Z, rr_return r <> inr opened)) /\
  (rr_return r' = inr [443] /\ rr_results r' = [] /\
   rr_return r' <> inr (open_of (rr_results r'))).
Proof.
  intros w r w' r'. split.
  - split; [reflexivity|]. split; [reflexivity|].
    intros opened. vm_compute. discriminate.
  - split; [by vm_compute|]. split; [by vm_compute|]. vm_compute. discriminate.
Qed.

(** C9.  When writing the output file raises, [run_scan] prints the
    failure and returns all the same: the list it returns and the
    outcome sequence it holds are those of the same scan with a write
    that succeeds. *)
Theorem save_failure_keeps_results (w : world) (target_ip : string)
    (ports : list Z) (threads : Z) (timeout : Q) (path : string)
    (e : py_exception) :
  ports <> [] -> path <> EmptyString ->
  w_interrupt w = None -> w_write w path = Some e ->
  let r := run_scan w target_ip ports threads timeout (Some path) in
  let saved := run_scan (with_write w (fun _ => None)) target_ip ports threads
                 timeout (Some path) in
  Printed (MsgWriteFailed e) ∈ rr_trace r /\
  (exists opened : list Z, rr_return r = inr opened) /\
  rr_return r = rr_return saved /\
  rr_results r = rr_results saved /\
  (exists fmt, FileWrite path fmt (rr_results r) ∈ rr_trace saved).
Proof.
  intros Hne Hpath Hint Hwrite r saved. subst r saved.
  rewrite (run_scan_complete w) by done.
  rewrite (run_scan_complete (with_write w (fun _ => None))) by done.
  cbn [rr_return rr_results rr_trace].
  change (submit_all (with_write w (fun _ => None)) target_ip timeout ports)
    with (submit_all w target_ip timeout ports).
  change (arrivals_of (with_write w (fun _ => None)) target_ip timeout ports)
    with (arrivals_of w target_ip timeout ports).
  unfold save_results. case_decide; [done|]. rewrite Hwrite.
  cbn [w_write with_write].
  split; [|split; [by eexists|split; [done|split; [done|]]]].
  - rewrite !elem_of_app. right. right. rewrite list_elem_of_singleton. done.
  - eexists. rewrite !elem_of_app. right. right. left.
Qed.

(** C9 at a write that fails with EACCES. *)
Lemma save_failure_keeps_results_witness :
  let w := with_write (demo_world (fun _ => all_open) [1%nat] None) (fun _ => Some (OSError 13)) in
  let r := run_scan w "10.0.0.1" [22; 443] 100 1%Q (Some "scan.json") in
  let saved := run_scan (with_write w (fun _ => None)) "10.0.0.1" [22; 443]
                 100 1%Q (Some "scan.json") in
  ([22; 443] <> [] /\ "scan.json" <> EmptyString /\ w_interrupt w = None /\
   w_write w "scan.json" = Some (OSError 13)) /\
  Printed (MsgWriteFailed (OSError 13)) ∈ rr_trace r /\
  (exists opened : list Z, rr_return r = inr opened) /\
  rr_return r = rr_return saved /\
  rr_results r = rr_results saved /\
  (exists fmt, FileWrite "scan.json" fmt (rr_results r) ∈ rr_trace saved).
Proof.
  intros w r saved.
  assert ([22; 443] <> []) as H1 by discriminate.
  assert ("scan.json" <> EmptyString) as H2 by discriminate.
  assert (w_interrupt w = None) as H3 by reflexivity.
  assert (w_write w "scan.json" = Some (OSError 13)) as H4 by reflexivity.
  split; [by repeat split|].
  exact (save_failure_keeps_results w "10.0.0.1" [22; 443] 100 1%Q "scan.json"
           (OSError 13) H1 H2 H3 H4).
Defined.

(* ===================================================================== *)
(** * Part III.  Further properties of the parser and the engine          *)
(* ===================================================================== *)

(** ** The parser returns the ports the tokens stand for *)

Lemma token_step_covers (X X' : gset Z) (t : string) (p : Z) :
  token_step X t = Some X' ->
  p ∈ X' <-> p ∈ X \/ token_covers t p.
Proof.
  unfold token_step, token_covers. intros Hstep.
  destruct (str_contains "-" t) eqn:Hc.
  - destruct (str_split1_inv t Hc) as (a_str & b_str & Hsplit & Hin).
    rewrite Hsplit in Hstep.
    destruct (py_int a_str) as [a|] eqn:Ha; [|done].
    destruct (py_int b_str) as [b|] eqn:Hb; [|done].
    destruct ((a <? 1) || (b >? 65535) || (a >? b)) eqn:E; [done|].
    simplify_eq. rewrite elem_of_add_range.
    split; (intros [?|H]; [by left|right]).
    + split; [lia|]. right. exists a_str, b_str, a, b.
      repeat split; try done; lia.
    + destruct H as [Hp [Hs|(a' & b' & va & vb & Hin' & Ha' & Hb' & H1 & H2)]].
      * pose proof (py_int_hyphen t p Hs Hc). lia.
      * assert (str_contains "-" a' = false) as Hno.
        { destruct (str_contains "-" a') eqn:E'; [|done].
          pose proof (py_int_hyphen a' va Ha' E'). lia. }
        apply hyphen_splits_spec in Hin'.
        pose proof (str_split1_app "-" a' b' Hno) as Hsp.
        rewrite <- Hin', Hsplit in Hsp. simplify_eq. done.
  - destruct (py_int t) as [q|] eqn:Hq; [|done].
    destruct ((1 <=? q) && (q <=? 65535)) eqn:E; [|done]. simplify_eq.
    rewrite elem_of_union, elem_of_singleton.
    split; (intros [H|H]; [|]).
    + subst. right. split; [lia|by left].
    + by left.
    + by right.
    + destruct H as [_ [Hs|(a' & b' & va & vb & Hin' & _)]].
      * left. congruence.
      * apply hyphen_splits_spec in Hin'.
        rewrite Hin', str_contains_app in Hc. done.
Qed.

Lemma parse_tokens_covers (ts : list string) (X X' : gset Z) (p : Z) :
  parse_tokens X ts = Some X' ->
  p ∈ X' <-> p ∈ X \/ exists t, t ∈ ts /\ token_covers t p.
Proof.
  revert X. induction ts as [|t ts IH]; intros X; cbn [parse_tokens].
  - intros [= <-]. split; [by left|]. intros [?|(t & Hin & _)]; [done|].
    by apply elem_of_nil in Hin.
  - destruct (token_step X t) as [X1|] eqn:E; [|done]. intros Hrest.
    rewrite (IH _ Hrest), (token_step_covers _ _ _ _ E). split.
    + intros [[?|?]|(t' & Hin & Hc)]; [by left| |].
      * right. exists t. split; [by left|done].
      * right. exists t'. split; [by right|done].
    + intros [?|(t' & Hin & Hc)]; [by left; left|].
      apply elem_of_cons in Hin as [->|Hin]; [by left; right|].
      right. by exists t'.
Qed.

Lemma parse_ports_input_covers (spec : string) (ports : list Z) (p : Z) :
  parse_ports_input spec = Some ports ->
  p ∈ ports <-> exists t, t ∈ tokens spec /\ token_covers t p.
Proof.
  intros Hparse.
  assert (spec <> EmptyString) as Hne by (by intros ->).
  rewrite parse_ports_input_tokens in Hparse by done.
  destruct (parse_tokens ∅ (tokens spec)) as [X|] eqn:E; [|done].
  simpl in Hparse. simplify_eq.
  rewrite elem_of_sorted, (parse_tokens_covers _ _ _ _ E).
  split; [intros [H|H]; [by apply not_elem_of_empty in H|done]|by right].
Qed.

(** X1.  When [parse_ports_input] accepts a specification, the list it
    returns holds exactly the ports its tokens stand for: no port is
    dropped and none is invented. *)
Theorem parse_ports_input_exact (spec : string) (ports : list Z) (p : Z) :
  parse_ports_input spec = Some ports ->
  p ∈ ports <-> exists t, t ∈ tokens spec /\ token_covers t p.
Proof. apply parse_ports_input_covers. Qed.

(** X1 at ["22, 8000-8002"] and the port 8001. *)
Lemma parse_ports_input_exact_witness :
  parse_ports_input "22, 8000-8002" = Some [22; 8000; 8001; 8002] /\
  (8001 ∈ [22; 8000; 8001; 8002] <->
   exists t, t ∈ tokens "22, 8000-8002" /\ token_covers t 8001).
Proof.
  assert (parse_ports_input "22, 8000-8002" = Some [22; 8000; 8001; 8002])
    as H by (vm_compute; reflexivity).
  split; [exact H|].
  exact (parse_ports_input_exact "22, 8000-8002" [22; 8000; 8001; 8002] 8001 H).
Defined.

Lemma strictly_sorted_ext (l1 l2 : list Z) :
  StronglySorted Z.lt l1 -> StronglySorted Z.lt l2 ->
  (forall p, p ∈ l1 <-> p ∈ l2) -> l1 = l2.
Proof.
  intros H1. revert l2. induction H1 as [|x l1 Hs IH Hx]; intros l2 H2 Hext.
  - destruct l2 as [|y l2]; [done|].
    assert (y ∈ []) as H by (apply Hext; by left). by apply elem_of_nil in H.
  - destruct H2 as [|y l2 Hs2 Hy].
    { assert (x ∈ []) as H by (apply Hext; by left). by apply elem_of_nil in H. }
    rewrite Forall_forall in Hx, Hy.
    assert (x = y) as <-.
    { assert (x ∈ y :: l2) as [->|Hin1]%elem_of_cons by (apply Hext; by left);
        [done|].
      assert (y ∈ x :: l1) as [->|Hin2]%elem_of_cons by (apply Hext; by left);
        [done|].
      specialize (Hx _ Hin2). specialize (Hy _ Hin1). lia. }
    f_equal. apply IH; [done|]. intros p. split; intros Hp.
    + assert (p ∈ x :: l2) as [->|?]%elem_of_cons by (apply Hext; by right);
        [|done].
      specialize (Hx _ Hp). lia.
    + assert (p ∈ x :: l1) as [->|?]%elem_of_cons by (apply Hext; by right);
        [|done].
      specialize (Hy _ Hp). lia.
Qed.

(** X2.  On non-empty specifications the result depends on the set of
    tokens only: two specifications with the same tokens, in any order
    and with any repetitions, are both rejected or give the same list. *)
Theorem parse_ports_input_token_set (s1 s2 : string) :
  s1 <> EmptyString -> s2 <> EmptyString ->
  (forall t, t ∈ tokens s1 <-> t ∈ tokens s2) ->
  parse_ports_input s1 = parse_ports_input s2.
Proof.
  intros H1 H2 Hsame.
  assert (valid_spec s1 = valid_spec s2) as Hvalid.
  { unfold valid_spec. rewrite !bool_decide_eq_true_2 by done. cbn [andb].
    apply eq_true_iff_eq. rewrite !forallb_forall.
    split; intros H t Hin; apply H; apply list_elem_of_In;
      apply Hsame; by apply list_elem_of_In. }
  destruct (parse_ports_input s1) as [l1|] eqn:E1,
           (parse_ports_input s2) as [l2|] eqn:E2.
  - f_equal.
    pose proof (parse_ports_input_sorted _ _ E1) as (Hs1 & _).
    pose proof (parse_ports_input_sorted _ _ E2) as (Hs2 & _).
    apply strictly_sorted_ext; [done|done|]. intros p.
    rewrite (parse_ports_input_covers _ _ p E1), (parse_ports_input_covers _ _ p E2).
    split; intros (t & Hin & Hc); exists t; (split; [by apply Hsame|done]).
  - assert (is_Some (parse_ports_input s1)) as Hv%parse_ports_input_accepts
      by by rewrite E1.
    rewrite Hvalid in Hv. apply parse_ports_input_accepts in Hv.
    rewrite E2 in Hv. by destruct Hv.
  - assert (is_Some (parse_ports_input s2)) as Hv%parse_ports_input_accepts
      by by rewrite E2.
    rewrite <- Hvalid in Hv. apply parse_ports_input_accepts in Hv.
    rewrite E1 in Hv. by destruct Hv.
  - done.
Qed.

(** X2 at two spellings of the ports 22 and 80 to 82. *)
Lemma parse_ports_input_token_set_witness :
  ("80-82,22,80-82" <> EmptyString /\ " 22 ,,80-82" <> EmptyString /\
   forall t, t ∈ tokens "80-82,22,80-82" <-> t ∈ tokens " 22 ,,80-82") /\
  parse_ports_input "80-82,22,80-82" = parse_ports_input " 22 ,,80-82".
Proof.
  assert ("80-82,22,80-82" <> EmptyString) as H1 by discriminate.
  assert (" 22 ,,80-82" <> EmptyString) as H2 by discriminate.
  assert (forall t, t ∈ tokens "80-82,22,80-82" <-> t ∈ tokens " 22 ,,80-82")
    as H3.
  { intros t. change (tokens "80-82,22,80-82") with ["80-82"; "22"; "80-82"].
    change (tokens " 22 ,,80-82") with ["22"; "80-82"].
    rewrite !elem_of_cons, !elem_of_nil. tauto. }
  split; [exact (conj H1 (conj H2 H3))|].
  exact (parse_ports_input_token_set _ _ H1 H2 H3).
Defined.

(** ** What the engine reports is what the probes found *)

Lemma futures_elem (w : world) (target_ip : string) (timeout : Q)
    (ports : list Z) (f : future) :
  f ∈ (submit_all w target_ip timeout ports).1 ->
  exists i p, ports !! i = Some p /\ f = ex_submit w target_ip timeout i p.
Proof.
  cbn [submit_all fst]. intros (i & p & -> & Hp)%elem_of_lookup_imap. eauto.
Qed.

Lemma ex_submit_verdict (w : world) (target_ip : string) (timeout : Q)
    (fm : gmap nat Z) (i : nat) (p : Z) :
  port_of fm (ex_submit w target_ip timeout i p) = p /\
  (fut_open (ex_submit w target_ip timeout i p) = true <->
   connection_succeeds (w_net w i) target_ip p timeout).
Proof.
  unfold port_of, fut_open. cbn [ex_submit fut_value].
  destruct (scan_port_returns (w_net w i) target_ip p timeout) as (b & -> & Hb).
  done.
Qed.

(** Every run keeps the rows of the futures it has seen, and what it
    returns is read off the futures whose turn reached
    [open_ports.append]. *)
Lemma run_scan_seen (w : world) (target_ip : string) (ports : list Z)
    (threads : Z) (timeout : Q) (save_path : option string) :
  let fm := (submit_all w target_ip timeout ports).2 in
  let r := run_scan w target_ip ports threads timeout save_path in
  exists seen appended : list future,
    (forall f, f ∈ seen -> f ∈ (submit_all w target_ip timeout ports).1) /\
    (forall f, f ∈ appended -> f ∈ (submit_all w target_ip timeout ports).1) /\
    (w_interrupt w = None -> ports <> [] ->
     appended ≡ₚ (submit_all w target_ip timeout ports).1) /\
    rr_results r = imap (outcome_row w target_ip fm) seen /\
    (forall opened, rr_return r = inr opened ->
       opened = port_of fm <$> filter fut_open appended).
Proof.
  intros fm r. subst r.
  assert (forall f, f ∈ arrivals_of w target_ip timeout ports ->
            f ∈ (submit_all w target_ip timeout ports).1) as Harr.
  { intros f. unfold arrivals_of. by rewrite as_completed_Permutation. }
  assert (forall n f, f ∈ take n (arrivals_of w target_ip timeout ports) ->
            f ∈ (submit_all w target_ip timeout ports).1) as Htake.
  { intros n f Hf. apply Harr.
    rewrite <- (take_drop n (arrivals_of w target_ip timeout ports)).
    apply elem_of_app. by left. }
  destruct (decide (ports = [])) as [->|Hne].
  { exists [], []. split; [by intros f ?%elem_of_nil|].
    split; [by intros f ?%elem_of_nil|]. split; [done|].
    split; [done|]. cbn. by intros opened [= <-]. }
  destruct (w_interrupt w) as [[k|k pt|j|]|] eqn:Hi.
  - rewrite run_scan_interrupted_submit with (k := k) by done.
    exists [], []. split; [by intros f ?%elem_of_nil|].
    split; [by intros f ?%elem_of_nil|]. split; [done|].
    split; [done|]. by intros opened [=].
  - rewrite run_scan_interrupted with (k := k) (pt := pt) by done.
    exists (take k (arrivals_of w target_ip timeout ports)),
           (take (turns_appended k pt) (arrivals_of w target_ip timeout ports)).
    split; [apply Htake|]. split; [apply Htake|].
    split; [done|]. split; [done|].
    cbn [rr_return]. intros opened [= <-].
    destruct pt; cbn [turns_appended]; [| |by rewrite open_ports_take_S];
      destruct (arrivals_of w target_ip timeout ports !! k); cbn [cut_open];
      by rewrite app_nil_r.
  - rewrite run_scan_interrupted_after with (j := j) by done.
    exists (arrivals_of w target_ip timeout ports), [].
    split; [done|]. split; [by intros f ?%elem_of_nil|].
    split; [done|]. split; [done|]. by intros opened [=].
  - rewrite run_scan_interrupted_write by done.
    exists (arrivals_of w target_ip timeout ports), [].
    split; [done|]. split; [by intros f ?%elem_of_nil|].
    split; [done|]. split; [done|]. by intros opened [=].
  - rewrite run_scan_complete by done.
    exists (arrivals_of w target_ip timeout ports),
           (arrivals_of w target_ip timeout ports).
    split; [done|]. split; [done|]. split.
    + intros _ _. unfold arrivals_of. apply as_completed_Permutation.
    + split; [done|]. cbn. by intros opened [= <-].
Qed.

(** X3.  A port [run_scan] returns is one of the submitted ports whose
    probe connected; and in a scan that nothing interrupts every
    submitted port whose probe connected is returned. *)
Theorem open_ports_are_connected (w : world) (target_ip : string)
    (ports : list Z) (threads : Z) (timeout : Q) (save_path : option string)
    (opened : list Z) :
  rr_return (run_scan w target_ip ports threads timeout save_path) = inr opened ->
  (forall p, p ∈ opened ->
     exists i, ports !! i = Some p /\
       connection_succeeds (w_net w i) target_ip p timeout) /\
  (w_interrupt w = None ->
   forall i p, ports !! i = Some p ->
     connection_succeeds (w_net w i) target_ip p timeout -> p ∈ opened).
Proof.
  intros Hret.
  destruct (run_scan_seen w target_ip ports threads timeout save_path)
    as (_ & seen & _ & Hsub & Hall & _ & Hopen).
  specialize (Hopen _ Hret). subst opened. split.
  - intros p (f & -> & Hf)%list_elem_of_fmap.
    apply list_elem_of_filter in Hf as [Ho Hf].
    apply Hsub, futures_elem in Hf as (i & q & Hq & ->).
    destruct (ex_submit_verdict w target_ip timeout
                (submit_all w target_ip timeout ports).2 i q) as [Hport Hv].
    exists i. rewrite Hport. split; [done|]. apply Hv. by apply Is_true_true.
  - intros Hint i p Hp Hconn.
    destruct (decide (ports = [])) as [->|Hne]; [done|].
    apply list_elem_of_fmap. exists (ex_submit w target_ip timeout i p).
    destruct (ex_submit_verdict w target_ip timeout
                (submit_all w target_ip timeout ports).2 i p) as [Hport Hv].
    split; [done|]. apply list_elem_of_filter. split.
    + apply Is_true_true. by apply Hv.
    + rewrite (Hall Hint Hne). cbn [submit_all fst].
      apply elem_of_lookup_imap. eauto.
Qed.

(** X3 at the example scan: 443 is returned, and its probe connected. *)
Lemma open_ports_are_connected_witness :
  let w := demo_world demo_net [3%nat] None in
  rr_return (run_scan w "10.0.0.1" [21; 22; 80; 443] 100 1%Q None)
    = inr [443; 22] /\
  (forall p, p ∈ [443; 22] ->
     exists i, [21; 22; 80; 443] !! i = Some p /\
       connection_succeeds (w_net w i) "10.0.0.1" p 1%Q) /\
  (w_interrupt w = None ->
   forall i p, [21; 22; 80; 443] !! i = Some p ->
     connection_succeeds (w_net w i) "10.0.0.1" p 1%Q -> p ∈ [443; 22]).
Proof.
  intros w.
  assert (rr_return (run_scan w "10.0.0.1" [21; 22; 80; 443] 100 1%Q None)
          = inr [443; 22]) as H by (vm_compute; reflexivity).
  split; [exact H|].
  exact (open_ports_are_connected w "10.0.0.1" [21; 22; 80; 443] 100 1%Q None
           [443; 22] H).
Defined.

(** X4.  Every outcome row names the target as host and as ip, carries a
    submitted port, and says ["open"] when that port's probe connected
    and ["closed"] when it did not. *)
Theorem outcome_rows_truthful (w : world) (target_ip : string)
    (ports : list Z) (threads : Z) (timeout : Q) (save_path : option string)
    (r : row) :
  r ∈ rr_results (run_scan w target_ip ports threads timeout save_path) ->
  row_host r = target_ip /\ row_ip r = target_ip /\
  exists i, ports !! i = Some (row_port r) /\
    (row_status r = "open" /\
       connection_succeeds (w_net w i) target_ip (row_port r) timeout \/
     row_status r = "closed" /\
       ~ connection_succeeds (w_net w i) target_ip (row_port r) timeout).
Proof.
  destruct (run_scan_seen w target_ip ports threads timeout save_path)
    as (seen & _ & Hsub & _ & _ & -> & _).
  intros (j & f & -> & Hf)%elem_of_lookup_imap.
  apply list_elem_of_lookup_2, Hsub, futures_elem in Hf as (i & q & Hq & ->).
  destruct (ex_submit_verdict w target_ip timeout
              (submit_all w target_ip timeout ports).2 i q) as [Hport Hv].
  cbn [outcome_row row_host row_ip row_port row_status].
  split; [done|]. split; [done|]. exists i. rewrite Hport. split; [done|].
  destruct (fut_open (ex_submit w target_ip timeout i q)).
  - left. split; [done|]. by apply Hv.
  - right. split; [done|]. intros Hc. by apply Hv in Hc.
Qed.

(** X4 at the first row of the example scan. *)
Lemma outcome_rows_truthful_witness :
  let w := demo_world demo_net [3%nat] None in
  let r := {| row_host := "10.0.0.1"; row_ip := "10.0.0.1"; row_port := 443;
              row_status := "open"; row_scanned_at := "2025-10-03T12:00:00" |} in
  r ∈ rr_results (run_scan w "10.0.0.1" [21; 22; 80; 443] 100 1%Q None) /\
  row_host r = "10.0.0.1" /\ row_ip r = "10.0.0.1" /\
  exists i, [21; 22; 80; 443] !! i = Some (row_port r) /\
    (row_status r = "open" /\
       connection_succeeds (w_net w i) "10.0.0.1" (row_port r) 1%Q \/
     row_status r = "closed" /\
       ~ connection_succeeds (w_net w i) "10.0.0.1" (row_port r) 1%Q).
Proof.
  intros w r.
  assert (r ∈ rr_results (run_scan w "10.0.0.1" [21; 22; 80; 443] 100 1%Q None))
    as H by (vm_compute; left).
  split; [exact H|].
  exact (outcome_rows_truthful w "10.0.0.1" [21; 22; 80; 443] 100 1%Q None r H).
Defined.

(** X5.  Whatever number of threads is asked for, zero and negative
    numbers included, a scan of at least one port creates its pool with
    at least one worker and at most one worker per port; asking for one
    thread or fewer gives a pool of one. *)
Theorem pool_size_within_bounds (w : world) (target_ip : string)
    (ports : list Z) (threads : Z) (timeout : Q) (save_path : option string) :
  ports <> [] ->
  exists bound : Z,
    rr_trace (run_scan w target_ip ports threads timeout save_path) !! 1%nat
      = Some (PoolCreate bound) /\
    1 <= bound <= Z.of_nat (length ports) /\
    bound <= Z.max 1 threads /\
    (threads <= 1 -> bound = 1).
Proof.
  intros Hne. exists (max_workers threads ports).
  split; [by apply run_scan_creates_pool|].
  unfold max_workers. destruct ports; [done|]. cbn [length]. lia.
Qed.

(** X5 at a scan of three ports asked to run on no thread at all. *)
Lemma pool_size_within_bounds_witness :
  [21; 22; 80] <> [] /\
  exists bound : Z,
    rr_trace (run_scan (demo_world demo_net [] None) "10.0.0.1" [21; 22; 80]
                0 1%Q None) !! 1%nat = Some (PoolCreate bound) /\
    1 <= bound <= Z.of_nat (length [21; 22; 80]) /\
    bound <= Z.max 1 0 /\
    (0 <= 1 -> bound = 1).
Proof.
  assert ([21; 22; 80] <> []) as H by discriminate.
  split; [exact H|].
  exact (pool_size_within_bounds (demo_world demo_net [] None) "10.0.0.1"
           [21; 22; 80] 0 1%Q None H).
Defined.

Lemma no_file_event_fmap {A} (g : A -> event) (l : list A) :
  (forall x, ~ file_event (g x)) -> Forall (fun ev => ~ file_event ev) (g <$> l).
Proof. intros Hg. apply Forall_fmap, Forall_forall. intros x _. apply Hg. Qed.

(** X6.  A [KeyboardInterrupt] that arrives before the saving block is
    reached, during submission, during collection (where it is caught
    and [run_scan] returns) or after the loop with at most the report
    printed, leaves the output file untouched, whatever save path was
    given: the outcomes collected are not saved. *)
Theorem interrupted_scan_saves_nothing (w : world) (target_ip : string)
    (ports : list Z) (threads : Z) (timeout : Q) (save_path : option string)
    (i : interrupt) :
  w_interrupt w = Some i -> before_saving i ->
  Forall (fun ev => ~ file_event ev)
    (rr_trace (run_scan w target_ip ports threads timeout save_path)).
Proof.
  intros Hint Hbefore.
  destruct (decide (ports = [])) as [->|Hne].
  { cbn. repeat constructor. by intros []. }
  assert (forall l : list future,
    Forall (fun ev => ~ file_event ev)
      ((fun f => Printed (MsgPortOpen
                   (port_of (submit_all w target_ip timeout ports).2 f))) <$> l))
    as Hprints by (intros l; apply no_file_event_fmap; by intros ? []).
  assert (forall l : list Z, Forall (fun ev => ~ file_event ev) (Submit <$> l))
    as Hsubmits by (intros l; apply no_file_event_fmap; by intros ? []).
  destruct i as [k|k pt|j|]; [| | |done].
  - rewrite run_scan_interrupted_submit with (k := k) by done.
    cbn [rr_trace]. rewrite !Forall_app. split; [|split; [done|]];
      repeat constructor; by intros [].
  - rewrite run_scan_interrupted with (k := k) (pt := pt) by done.
    cbn [rr_trace]. rewrite !Forall_app.
    split; [split; [|split; [done|split; [done|]]]|].
    + repeat constructor; by intros [].
    + destruct pt, (arrivals_of w target_ip timeout ports !! k) as [f|];
        cbn [cut_printed]; try constructor;
        destruct (fut_open f); repeat constructor; by intros [].
    + repeat constructor; by intros [].
  - rewrite run_scan_interrupted_after with (j := j) by done.
    cbn [rr_trace before_saving] in *. rewrite !Forall_app.
    split; [split; [|split; [done|done]]|split].
    + repeat constructor; by intros [].
    + repeat constructor; by intros [].
    + rewrite take_app_le by (cbn [length]; lia).
      apply Forall_take. repeat constructor; by intros [].
Qed.

(** X6 at a scan interrupted in its second turn, asked to save to
    [scan.json]. *)
Lemma interrupted_scan_saves_nothing_witness :
  let w := demo_world (fun _ => all_open) [1%nat]
             (Some (DuringCollect 1 AfterPrint)) in
  (w_interrupt w = Some (DuringCollect 1 AfterPrint) /\
   before_saving (DuringCollect 1 AfterPrint)) /\
  Forall (fun ev => ~ file_event ev)
    (rr_trace (run_scan w "10.0.0.1" [22; 443] 100 1%Q (Some "scan.json"))).
Proof.
  intros w. split; [split; [reflexivity|exact I]|].
  exact (interrupted_scan_saves_nothing w "10.0.0.1" [22; 443] 100 1%Q
           (Some "scan.json") (DuringCollect 1 AfterPrint) eq_refl I).
Defined.

(** Inside the saving block it is otherwise: an interrupt there leaves
    [run_scan] as an exception, with the file written (here before the
    line that reports it is printed) or cut in the middle. *)
Example interrupt_in_saving_block :
  let after := demo_world (fun _ => all_open) [] (Some (AfterCollect 4)) in
  let inside := demo_world (fun _ => all_open) [] (Some DuringWrite) in
  let r1 := run_scan after "10.0.0.1" [22] 100 1%Q (Some "scan.json") in
  let r2 := run_scan inside "10.0.0.1" [22] 100 1%Q (Some "scan.json") in
  rr_return r1 = inl KeyboardInterrupt /\
  last (rr_trace r1) = Some (FileWrite "scan.json" JSON (rr_results r1)) /\
  rr_return r2 = inl KeyboardInterrupt /\
  last (rr_trace r2) = Some (FileCut "scan.json").
Proof. intros after inside r1 r2. by vm_compute. Qed.

(* ===================================================================== *)
(** * Part IV.  The interactive layer                                     *)
(* ===================================================================== *)

(** ** [prompt_int] *)

Lemma prompt_int_spec (prompt : string) (default minv maxv : option Z)
    (inputs : list string) :
  let r := prompt_int prompt default minv maxv inputs in
  ui_rest r `suffix_of` inputs /\
  Forall is_talk (ui_log r) /\
  match ui_value r with
  | inr v => default = Some v \/ in_bounds minv maxv v
  | inl e => e = UiRaised (ExceptionRaised EOFError) /\ ui_rest r = []
  end.
Proof.
  induction inputs as [|line rest IH]; cbn zeta.
  - cbn. split; [done|]. split; [by repeat constructor|done].
  - destruct IH as (IHs & IHl & IHv). cbn [prompt_int].
    assert (forall complaint,
      let r := ui_after [Asked prompt; Said complaint]
                 (prompt_int prompt default minv maxv rest) in
      ui_rest r `suffix_of` line :: rest /\ Forall is_talk (ui_log r) /\
      match ui_value r with
      | inr v => default = Some v \/ in_bounds minv maxv v
      | inl e => e = UiRaised (ExceptionRaised EOFError) /\ ui_rest r = []
      end) as Hretry.
    { intros complaint. cbn [ui_after ui_rest ui_log ui_value].
      split; [by apply suffix_cons_r|]. split; [by repeat constructor|done]. }
    assert (forall v, default = Some v \/ in_bounds minv maxv v ->
      let r := {| ui_value := inr v; ui_rest := rest; ui_log := [Asked prompt] |} in
      ui_rest r `suffix_of` line :: rest /\ Forall is_talk (ui_log r) /\
      match ui_value r with
      | inr v => default = Some v \/ in_bounds minv maxv v
      | inl e => e = UiRaised (ExceptionRaised EOFError) /\ ui_rest r = []
      end) as Hgive.
    { intros v Hv. cbn. split; [apply suffix_cons_r; done|].
      split; [by repeat constructor|done]. }
    destruct (if decide (str_strip line = EmptyString) then default else None)
      as [d|] eqn:Hd.
    { apply Hgive. left. by case_decide. }
    destruct (py_int (str_strip line)) as [v|]; [|apply Hretry].
    destruct (match minv with Some m => v <? m | None => false end) eqn:Hlo;
      [apply Hretry|].
    destruct (match maxv with Some m => v >? m | None => false end) eqn:Hhi;
      [apply Hretry|].
    apply Hgive. right. split; intros m ->; lia.
Qed.

(** X7.  Whatever is typed, [prompt_int] stops at the first line it can
    take: a blank line when there is a default, which it returns
    unchecked against the bounds, or a line that spells an integer within
    the bounds given, which it returns.  Every line before that one was
    refused, and the lines after it, all of them and no others, are left
    unread.  When no line can be taken it reads them all and raises
    [EOFError]. *)
Theorem prompt_int_within_bounds (prompt : string) (default minv maxv : option Z)
    (inputs : list string) :
  let r := prompt_int prompt default minv maxv inputs in
  match ui_value r with
  | inr v =>
      exists (before : list string) (line : string),
        inputs = before ++ line :: ui_rest r /\
        Forall (refused default minv maxv) before /\
        accepted default minv maxv line v /\
        (default = Some v \/ in_bounds minv maxv v)
  | inl e =>
      e = UiRaised (ExceptionRaised EOFError) /\ ui_rest r = [] /\
      Forall (refused default minv maxv) inputs
  end.
Proof.
  cbn zeta. induction inputs as [|line rest IH]; [done|]. cbn [prompt_int].
  destruct (if decide (str_strip line = EmptyString) then default else None)
    as [d|] eqn:Hd.
  { cbn. exists [], line. case_decide; [|done].
    split; [done|]. split; [constructor|]. split; [by left|by left]. }
  assert (refused default minv maxv line ->
    forall complaint,
    match ui_value (ui_after [Asked prompt; Said complaint]
                      (prompt_int prompt default minv maxv rest)) with
    | inr v =>
        exists (before : list string) (l : string),
          line :: rest =
            before ++ l :: ui_rest (ui_after [Asked prompt; Said complaint]
                                      (prompt_int prompt default minv maxv rest)) /\
          Forall (refused default minv maxv) before /\
          accepted default minv maxv l v /\
          (default = Some v \/ in_bounds minv maxv v)
    | inl e =>
        e = UiRaised (ExceptionRaised EOFError) /\
        ui_rest (ui_after [Asked prompt; Said complaint]
                   (prompt_int prompt default minv maxv rest)) = [] /\
        Forall (refused default minv maxv) (line :: rest)
    end) as Hretry.
  { intros Hline complaint. cbn [ui_after ui_value ui_rest].
    destruct (ui_value (prompt_int prompt default minv maxv rest)) as [e|v].
    - destruct IH as (-> & Hrest & Hall). by repeat split; [|constructor].
    - destruct IH as (before & l & Heq & Hbefore & Hl & Hv).
      exists (line :: before), l. rewrite Heq at 1.
      split; [done|]. split; [by constructor|done]. }
  assert (forall v, ~ (str_strip line = EmptyString /\ default = Some v))
    as Hblank.
  { intros v [Hs Hdef]. rewrite Hs, Hdef in Hd. by rewrite decide_True in Hd. }
  destruct (py_int (str_strip line)) as [v|] eqn:Hint.
  2:{ apply Hretry. intros u [Hu|[Hu _]]; [by eapply Hblank|].
      by rewrite Hint in Hu. }
  destruct (match minv with Some m => v <? m | None => false end) eqn:Hlo.
  { apply Hretry. intros u [Hu|[Hu [Hmin _]]]; [by eapply Hblank|].
    rewrite Hint in Hu. injection Hu as <-.
    destruct minv as [m|]; [|done]. specialize (Hmin m eq_refl). lia. }
  destruct (match maxv with Some m => v >? m | None => false end) eqn:Hhi.
  { apply Hretry. intros u [Hu|[Hu [_ Hmax]]]; [by eapply Hblank|].
    rewrite Hint in Hu. injection Hu as <-.
    destruct maxv as [m|]; [|done]. specialize (Hmax m eq_refl). lia. }
  assert (in_bounds minv maxv v) as Hin by (split; intros m ->; lia).
  cbn. exists [], line. split; [done|]. split; [constructor|].
  split; [by right|by right].
Qed.

(** A session of [prompt_int]: three lines refused, the fourth taken,
    the fifth left. *)
Example prompt_int_session :
  let r := prompt_int "Threads: " (Some 200) (Some 1) (Some 2000)
             ["abc"; "0"; "5000"; " 17 "; "x"] in
  ui_value r = inr 17 /\ ui_rest r = ["x"] /\
  ui_log r = [Asked "Threads: "; Said "Please enter a valid integer.";
              Asked "Threads: "; Said "Value is below minimum.";
              Asked "Threads: "; Said "Value is above maximum.";
              Asked "Threads: "].
Proof. by vm_compute. Qed.

(** ** [choose_output_filename] *)

Lemma append_cons_nonempty (a b : string) (c : ascii) :
  a +:+ String c b <> EmptyString.
Proof. by destruct a. Qed.

Lemma append_nonempty_l (a b : string) :
  a <> EmptyString -> a +:+ b <> EmptyString.
Proof. by destruct a. Qed.

Lemma choose_output_filename_spec (splitext : string -> string * string)
    (stamp hostname default_format : string) (inputs : list string) :
  let r := choose_output_filename splitext stamp hostname default_format inputs in
  ui_rest r `suffix_of` inputs /\
  Forall is_talk (ui_log r) /\
  match ui_value r with
  | inr (Some name) => name <> EmptyString
  | inr None =>
      exists line, line ∈ inputs /\ str_lower (str_strip line) ∈ ["n"; "no"]
  | inl e => e = UiRaised (ExceptionRaised EOFError) /\ ui_rest r = []
  end.
Proof.
  induction inputs as [|line rest IH]; cbn zeta.
  - cbn. split; [done|]. split; [by repeat constructor|done].
  - destruct IH as (IHs & IHl & IHv). cbn [choose_output_filename].
    case_decide as Hno.
    { cbn. split; [by apply suffix_cons_r|]. split; [by repeat constructor|].
      exists line. split; [by left|done]. }
    case_decide as Hblank.
    { cbn. split; [by apply suffix_cons_r|]. split; [by repeat constructor|].
      apply (append_cons_nonempty (safe_host hostname) _ "_"). }
    case_decide as Hext.
    + case_decide as Hclean.
      * cbn. split; [by apply suffix_cons_r|]. split; [by repeat constructor|].
        done.
      * cbn [ui_after ui_rest ui_log ui_value].
        split; [by apply suffix_cons_r|]. split; [by repeat constructor|].
        destruct (ui_value (choose_output_filename splitext stamp hostname
                              default_format rest)) as [e|[name|]];
          [done|done|].
        destruct IHv as (l & Hl & Hq). exists l. split; [by right|done].
    + destruct rest as [|line2 rest2].
      * cbn. split; [apply suffix_nil|]. split; [by repeat constructor|done].
      * cbn. split; [by do 2 apply suffix_cons_r|].
        split; [by repeat constructor|]. by apply append_nonempty_l.
Qed.

(** A scan of at least one port that nothing interrupts ends with the
    events of its saving block. *)
Lemma run_scan_saves (w : world) (target_ip : string) (ports : list Z)
    (threads : Z) (timeout : Q) (save_path : option string) :
  ports <> [] -> w_interrupt w = None ->
  let r := run_scan w target_ip ports threads timeout save_path in
  exists before : list event,
    rr_trace r = before ++ save_results w save_path (rr_results r).
Proof.
  intros Hne Hint. cbn zeta. rewrite run_scan_complete by done.
  cbn [rr_trace rr_results]. eexists. by rewrite (assoc_L (++)).
Qed.



Lemma str_replace_char_length (x y : ascii) (s : string) :
  String.length (str_replace_char x y s) = String.length s.
Proof. induction s as [|c r IH]; [done|]. cbn. by rewrite IH. Qed.

Lemma str_replace_char_contains (x y z : ascii) (s : string) :
  y <> z ->
  str_contains z (str_replace_char x y s) =
  if decide (x = z) then false else str_contains z s.
Proof.
  intros Hyz. induction s as [|c r IH]; cbn [str_replace_char str_contains].
  - by case_decide.
  - rewrite IH. repeat case_decide; congruence.
Qed.

(** X9.  On a blank line [choose_output_filename] generates the name
    [<host>_<stamp>.<format>], in which [<host>] is the host name with
    every [/], [:] and backslash turned into [_]: it is as long as the
    host name and holds none of these three characters. *)
Theorem auto_name_is_safe (splitext : string -> string * string)
    (stamp hostname default_format line : string) (rest : list string) :
  str_strip line = EmptyString ->
  ui_value (choose_output_filename splitext stamp hostname default_format
              (line :: rest))
    = inr (Some (safe_host hostname +:+ "_" +:+ stamp +:+ "." +:+ default_format)) /\
  String.length (safe_host hostname) = String.length hostname /\
  str_contains "/" (safe_host hostname) = false /\
  str_contains ":" (safe_host hostname) = false /\
  str_contains "\" (safe_host hostname) = false.
Proof.
  intros Hblank. split.
  - cbn [choose_output_filename]. rewrite Hblank.
    case_decide as Hno; [|by case_decide].
    exfalso. vm_compute in Hno.
    repeat (apply elem_of_cons in Hno as [Hno|Hno]; [discriminate|]).
    by apply elem_of_nil in Hno.
  - unfold safe_host. rewrite !str_replace_char_length. split; [done|].
    rewrite !str_replace_char_contains by done.
    repeat case_decide; try done.
Qed.

(** X9 at a host name with a port and a path. *)
Lemma auto_name_is_safe_witness :
  str_strip "  " = EmptyString /\
  ui_value (choose_output_filename posix_splitext "20251003_120000"
              "example.com:8080/a\b" "csv" ["  "; "x"])
    = inr (Some (safe_host "example.com:8080/a\b" +:+ "_" +:+ "20251003_120000"
                 +:+ "." +:+ "csv")) /\
  String.length (safe_host "example.com:8080/a\b")
    = String.length "example.com:8080/a\b" /\
  str_contains "/" (safe_host "example.com:8080/a\b") = false /\
  str_contains ":" (safe_host "example.com:8080/a\b") = false /\
  str_contains "\" (safe_host "example.com:8080/a\b") = false.
Proof.
  assert (str_strip "  " = EmptyString) as H by reflexivity.
  split; [exact H|].
  exact (auto_name_is_safe posix_splitext "20251003_120000"
           "example.com:8080/a\b" "csv" "  " ["x"] H).
Defined.

(** ** [resolve_host] and [input_host] *)

Lemma input_host_spec (gethostbyname : string -> result string)
    (inputs : list string) :
  let r := input_host gethostbyname inputs in
  ui_rest r `suffix_of` inputs /\
  Forall is_talk (ui_log r) /\
  match ui_value r with
  | inr (Some (host, ip)) =>
      gethostbyname host = Ok ip /\ ip <> EmptyString /\
      host <> EmptyString /\ (str_lower host ∉ ["q"; "quit"; "exit"]) /\
      exists line, line ∈ inputs /\ host = str_strip line
  | inr None =>
      exists line, line ∈ inputs /\
        str_lower (str_strip line) ∈ ["q"; "quit"; "exit"]
  | inl e => e = UiRaised (ExceptionRaised EOFError) /\ ui_rest r = []
  end.
Proof.
  induction inputs as [|line rest IH]; cbn zeta.
  - cbn. split; [done|]. split; [by repeat constructor|done].
  - destruct IH as (IHs & IHl & IHv). cbn [input_host].
    assert (forall events, Forall is_talk events ->
      let r := ui_after events (input_host gethostbyname rest) in
      ui_rest r `suffix_of` line :: rest /\ Forall is_talk (ui_log r) /\
      match ui_value r with
      | inr (Some (host, ip)) =>
          gethostbyname host = Ok ip /\ ip <> EmptyString /\
          host <> EmptyString /\ (str_lower host ∉ ["q"; "quit"; "exit"]) /\
          exists l, l ∈ line :: rest /\ host = str_strip l
      | inr None =>
          exists l, l ∈ line :: rest /\
            str_lower (str_strip l) ∈ ["q"; "quit"; "exit"]
      | inl e => e = UiRaised (ExceptionRaised EOFError) /\ ui_rest r = []
      end) as Hretry.
    { intros events Hev. cbn [ui_after ui_rest ui_log ui_value].
      split; [by apply suffix_cons_r|]. split; [by apply Forall_app|].
      destruct (ui_value (input_host gethostbyname rest)) as [e|[[host ip]|]];
        [done| |].
      - destruct IHv as (? & ? & ? & ? & l & Hl & ?).
        repeat split; try done. exists l. split; [by right|done].
      - destruct IHv as (l & Hl & ?). exists l. split; [by right|done]. }
    case_decide as Hblank; [apply Hretry; by repeat constructor|].
    case_decide as Hquit.
    { cbn. split; [by apply suffix_cons_r|]. split; [by repeat constructor|].
      exists line. split; [by left|done]. }
    unfold resolve_host.
    destruct (gethostbyname (str_strip line)) as [[|c ip]|e] eqn:Hres;
      try (apply Hretry; by repeat constructor).
    cbn. split; [by apply suffix_cons_r|]. split; [by repeat constructor|].
    repeat split; try done. exists line. split; [by left|done].
Qed.



(** ** [print_banner] *)

Lemma str_repeat_length (c : ascii) (n : nat) :
  String.length (str_repeat c n) = n.
Proof. induction n as [|n IH]; [done|]. cbn. by rewrite IH. Qed.

Lemma append_length (a b : string) :
  String.length (a +:+ b) = (String.length a + String.length b)%nat.
Proof.
  induction a as [|c a IH]; [done|].
  change (S (String.length (a +:+ b)) = S (String.length a + String.length b)).
  by rewrite IH.
Qed.

Lemma append_empty_r (s : string) : s +:+ EmptyString = s.
Proof.
  induction s as [|c s IH]; [done|].
  change (String c (s +:+ EmptyString) = String c s). by rewrite IH.
Qed.

Lemma str_center_length (s : string) (width : nat) :
  String.length (str_center s width) = Nat.max width (String.length s).
Proof.
  unfold str_center. destruct (width <=? String.length s)%nat eqn:E.
  - apply Nat.leb_le in E. lia.
  - apply Nat.leb_gt in E.
    rewrite !append_length, !str_repeat_length.
    pose proof (Nat.div_mod_eq (width - String.length s) 2).
    pose proof (Nat.mod_upper_bound (width - String.length s) 2).
    assert ((width - String.length s) / 2 +
            (if Nat.odd (width - String.length s) && Nat.odd width then 1 else 0)
            <= width - String.length s)%nat as Hleft.
    { destruct (Nat.odd (width - String.length s)) eqn:Hodd; cbn [andb].
      - destruct (Nat.odd width); [|lia].
        apply Nat.odd_spec in Hodd as [k Hk]. lia.
      - lia. }
    lia.
Qed.

(** X11.  Without pyfiglet [print_banner] prints three lines, each 60
    characters wide when the text has at most 60 characters, the middle
    one holding the text; with pyfiglet it prints the rendered banner,
    or the bare text when rendering raises. *)
Theorem print_banner_lines (pf : platform) (text font : string) :
  (pf_figlet pf = None ->
   (String.length text <= 60)%nat ->
   exists left right : nat,
     print_banner pf text font =
       [Said (str_repeat "=" 60);
        Said (str_repeat " " left +:+ text +:+ str_repeat " " right);
        Said (str_repeat "=" 60)] /\
     (left + String.length text + right = 60)%nat /\
     (left <= right <= left + 1)%nat) /\
  (forall render, pf_figlet pf = Some render ->
     print_banner pf text font =
       [Said (match render font text with Ok art => art | Raise _ => text end)]).
Proof.
  split.
  - intros Hnone Hlen. unfold print_banner, str_center. rewrite Hnone.
    destruct (60 <=? String.length text)%nat eqn:E.
    + apply Nat.leb_le in E. exists 0%nat, 0%nat. split; [|lia].
      cbn [str_repeat].
      change (EmptyString +:+ text +:+ EmptyString) with (text +:+ EmptyString).
      by rewrite append_empty_r.
    + apply Nat.leb_gt in E. cbn [Nat.odd andb]. rewrite andb_false_r.
      eexists _, _. split; [reflexivity|].
      pose proof (Nat.div_mod_eq (60 - String.length text) 2).
      pose proof (Nat.mod_upper_bound (60 - String.length text) 2).
      lia.
  - intros render Hsome. unfold print_banner. rewrite Hsome.
    by destruct (render font text).
Qed.

(** X11 at the banner of the scanner menu on a machine without pyfiglet. *)
Lemma print_banner_lines_witness :
  pf_figlet demo_platform = None /\ (String.length "PORT SCANNER" <= 60)%nat /\
  exists left right : nat,
    print_banner demo_platform "PORT SCANNER" "slant" =
      [Said (str_repeat "=" 60);
       Said (str_repeat " " left +:+ "PORT SCANNER" +:+ str_repeat " " right);
       Said (str_repeat "=" 60)] /\
    (left + String.length "PORT SCANNER" + right = 60)%nat /\
    (left <= right <= left + 1)%nat.
Proof.
  assert (pf_figlet demo_platform = None) as H1 by reflexivity.
  assert (String.length "PORT SCANNER" <= 60)%nat as H2 by (vm_compute; lia).
  split; [exact H1|]. split; [exact H2|].
  exact (proj1 (print_banner_lines demo_platform "PORT SCANNER" "slant") H1 H2).
Defined.

(** ** The chosen format and the format written, on POSIX paths *)

Lemma rsplit_at_absent (x : ascii) (t : string) :
  str_contains x t = false -> rsplit_at x t = None.
Proof.
  induction t as [|c t IH]; [done|]. cbn [str_contains rsplit_at].
  case_decide; [done|]. intros Hno. by rewrite IH.
Qed.

Lemma rsplit_at_append (x : ascii) (s t : string) :
  str_contains x t = false ->
  rsplit_at x (s +:+ t) =
  match rsplit_at x s with
  | Some (before, after) => Some (before, after +:+ t)
  | None => None
  end.
Proof.
  intros Ht. induction s as [|c s IH].
  - by apply rsplit_at_absent.
  - change (String c s +:+ t) with (String c (s +:+ t)). cbn [rsplit_at].
    rewrite IH. destruct (rsplit_at x s) as [[b a]|]; [done|].
    by case_decide.
Qed.

Lemma rsplit_at_last (x : ascii) (s t : string) :
  str_contains x t = false ->
  rsplit_at x (s +:+ String x t) = Some (s, t).
Proof.
  intros Ht. induction s as [|c s IH].
  - change (EmptyString +:+ String x t) with (String x t).
    cbn [rsplit_at]. rewrite rsplit_at_absent by done. by case_decide.
  - change (String c s +:+ String x t) with (String c (s +:+ String x t)).
    cbn [rsplit_at]. by rewrite IH.
Qed.

Lemma str_lstrip_char_absent (x : ascii) (t : string) :
  str_contains x t = false -> str_lstrip_char x t = t.
Proof.
  destruct t as [|c t]; [done|]. cbn [str_contains str_lstrip_char].
  by case_decide.
Qed.

Lemma str_lstrip_char_append (x : ascii) (s t : string) :
  str_lstrip_char x (s +:+ t) =
  if decide (str_lstrip_char x s = EmptyString) then str_lstrip_char x t
  else str_lstrip_char x s +:+ t.
Proof.
  induction s as [|c s IH]; [done|].
  change (String c s +:+ t) with (String c (s +:+ t)).
  cbn [str_lstrip_char]. destruct (decide (c = x)) as [->|Hc]; [exact IH|].
  by rewrite decide_False.
Qed.

Lemma substring_append (s t : string) :
  String.substring 0 (String.length s) (s +:+ t) = s.
Proof.
  induction s as [|c s IH].
  - by destruct t.
  - change (String c s +:+ t) with (String c (s +:+ t)).
    cbn [String.length String.substring]. by rewrite IH.
Qed.

(** Appending [.e] to a path, for an [e] without dot or slash: the
    result has the extension [.e] unless the last component of the path
    is empty or made of dots, and then it has none. *)
Lemma posix_splitext_append (p e : string) :
  str_contains "." e = false -> str_contains "/" e = false ->
  posix_splitext (p +:+ String "." e) =
  if decide (posix_stem p = EmptyString) then (p +:+ String "." e, EmptyString)
  else (p, String "." e).
Proof.
  intros Hdot Hslash. unfold posix_splitext, posix_stem, posix_basename.
  assert (str_contains "/" (String "." e) = false) as Hslash'.
  { cbn [str_contains]. by case_decide. }
  rewrite (rsplit_at_append "/" p _ Hslash').
  assert (match
            match rsplit_at "/" p with
            | Some (before, after) => Some (before, after +:+ String "." e)
            | None => None
            end
          with
          | Some (_, name) => name
          | None => p +:+ String "." e
          end =
          match rsplit_at "/" p with
          | Some (_, name) => name
          | None => p
          end +:+ String "." e) as ->.
  { by destruct (rsplit_at "/" p) as [[b a]|]. }
  rewrite str_lstrip_char_append. case_decide as Hstem.
  - cbn [str_lstrip_char]. rewrite decide_True by done.
    rewrite (str_lstrip_char_absent "." e Hdot).
    by rewrite (rsplit_at_absent "." e Hdot).
  - rewrite (rsplit_at_last "." _ e Hdot). f_equal.
    rewrite append_length. cbn [String.length].
    replace (String.length p + S (String.length e) - String.length e - 1)%nat
      with (String.length p) by lia.
    apply substring_append.
Qed.

Lemma save_results_written (w : world) (path : string) (rows : list row) :
  path <> EmptyString -> w_write w path = None ->
  save_results w (Some path) rows =
  [FileWrite path (save_format (w_splitext w) path) rows;
   Printed (MsgSaved path (save_format (w_splitext w) path))].
Proof.
  intros Hne Hw. unfold save_results, save_format.
  case_decide; [done|]. by rewrite Hw.
Qed.

(** X12.  On POSIX paths, when a name without extension is typed and a
    format is chosen, [choose_output_filename] returns the name with the
    format appended; and a scan of at least one port that nothing
    interrupts and whose write succeeds, given that name, ends by writing
    that file in the chosen format, except when the last component of
    the typed name is empty or made of dots only (as in [.] or [out/]):
    then the file is written as CSV even if JSON was chosen. *)
Theorem chosen_format_on_posix (stamp hostname default_format : string)
    (line line2 : string) (rest : list string) :
  let name_in := str_strip line in
  let fmt_choice := str_strip line2 in
  let fmt :=
    if decide (fmt_choice = "2" \/ str_lower fmt_choice ∈ ["json"; "j"])
    then "json" else "csv" in
  name_in <> EmptyString -> (str_lower name_in ∉ ["n"; "no"]) ->
  (posix_splitext name_in).2 = EmptyString ->
  ui_value (choose_output_filename posix_splitext stamp hostname default_format
              (line :: line2 :: rest))
    = inr (Some (name_in +:+ "." +:+ fmt)) /\
  forall (w : world) (target_ip : string) (ports : list Z) (threads : Z)
         (timeout : Q),
    ports <> [] -> w_interrupt w = None ->
    w_splitext w = posix_splitext ->
    w_write w (name_in +:+ "." +:+ fmt) = None ->
    let written :=
      if decide (fmt = "json" /\ posix_stem name_in <> EmptyString)
      then JSON else CSV in
    let r := run_scan w target_ip ports threads timeout
               (Some (name_in +:+ "." +:+ fmt)) in
    exists before : list event,
      rr_trace r =
      before ++ [FileWrite (name_in +:+ "." +:+ fmt) written (rr_results r);
                 Printed (MsgSaved (name_in +:+ "." +:+ fmt) written)].
Proof.
  intros name_in fmt_choice fmt Hne Hno Hext. split.
  - cbn [choose_output_filename]. fold name_in.
    rewrite decide_False by done. rewrite decide_False by done.
    rewrite decide_False by (by rewrite Hext; intros ?). done.
  - intros w target_ip ports threads timeout Hports Hint Hsplit Hwrite written r.
    destruct (run_scan_saves w target_ip ports threads timeout
                (Some (name_in +:+ "." +:+ fmt)) Hports Hint)
      as [before Hbefore].
    cbn zeta in Hbefore. fold r in Hbefore. exists before.
    rewrite Hbefore at 1. f_equal.
    rewrite save_results_written;
      [|by apply append_nonempty_l|done].
    assert (save_format (w_splitext w) (name_in +:+ "." +:+ fmt) = written)
      as ->; [|done].
    unfold save_format. rewrite Hsplit. subst written.
    change (name_in +:+ "." +:+ fmt) with (name_in +:+ String "." fmt).
    assert (str_contains "." fmt = false /\ str_contains "/" fmt = false /\
            str_lower (str_lstrip_char "." (String "." fmt)) = fmt /\
            (fmt = "json" \/ fmt = "csv")) as (Hd & Hs & Hl & Hf).
    { subst fmt. case_decide; vm_compute; auto. }
    rewrite posix_splitext_append by done.
    destruct (decide (posix_stem name_in = EmptyString)) as [Hstem|Hstem].
    + cbn [snd]. rewrite decide_False by (by vm_compute).
      rewrite decide_False by (by intros [_ ?]). done.
    + cbn [snd]. rewrite Hl.
      destruct Hf as [Hf|Hf]; rewrite Hf.
      * by rewrite !decide_True.
      * rewrite decide_False by done.
        by rewrite decide_False by (by intros [? _]).
Qed.

(** X12 at the name [.] with JSON chosen, and a scan of one port: the
    file [..json] is written as CSV. *)
Lemma chosen_format_on_posix_witness :
  let w := demo_world demo_net [] None in
  let r := run_scan w "10.0.0.1" [22] 100 1%Q (Some "..json") in
  ("." <> EmptyString /\ (str_lower (str_strip ".") ∉ ["n"; "no"]) /\
   (posix_splitext (str_strip ".")).2 = EmptyString /\
   [22] <> [] /\ w_interrupt w = None /\
   w_splitext w = posix_splitext /\ w_write w "..json" = None) /\
  ui_value (choose_output_filename posix_splitext "20251003_120000" "localhost"
              "csv" ["."; "json"; "x"]) = inr (Some "..json") /\
  exists before : list event,
    rr_trace r =
    before ++ [FileWrite "..json" CSV (rr_results r);
               Printed (MsgSaved "..json" CSV)].
Proof.
  intros w r.
  assert (str_strip "." <> EmptyString) as H1 by (vm_compute; discriminate).
  assert (str_lower (str_strip ".") ∉ ["n"; "no"]) as H2.
  { vm_compute. intros H.
    repeat (apply elem_of_cons in H as [H|H]; [discriminate|]).
    by apply elem_of_nil in H. }
  assert ((posix_splitext (str_strip ".")).2 = EmptyString) as H3
    by (vm_compute; reflexivity).
  assert ([22] <> []) as H4 by discriminate.
  assert (w_interrupt w = None) as H5 by reflexivity.
  assert (w_splitext w = posix_splitext) as H6 by reflexivity.
  assert (w_write w "..json" = None) as H7 by reflexivity.
  split; [by repeat split|].
  destruct (chosen_format_on_posix "20251003_120000" "localhost" "csv"
              "." "json" ["x"] H1 H2 H3) as [Hv Hs].
  split; [exact Hv|].
  exact (Hs w "10.0.0.1" [22] 100 1%Q H4 H5 H6 H7).
Defined.

(** ** Rules for console programs *)

Lemma Forall_talk (allowed : string -> list Z -> Z -> Prop) (events : list ui_event) :
  Forall is_talk events -> Forall (scans_satisfy allowed) events.
Proof. intros H. eapply Forall_impl; [exact H|]. by intros []. Qed.

Lemma menu_exit_eof : menu_exit (UiRaised (ExceptionRaised EOFError)).
Proof. right. by right. Qed.

Section Rules.
Context {A B : Type} (allowed : string -> list Z -> Z -> Prop).

Lemma ui_ok_ret (Q : A -> Prop) (bound : nat) (a : A) :
  Q a -> ui_ok allowed Q bound (ui_ret a).
Proof. intros Hq inputs _. cbn. by repeat split. Qed.

Lemma ui_ok_fail (Q : A -> Prop) (bound : nat) (e : ui_exit) :
  menu_exit e -> ui_ok allowed Q bound (ui_fail e).
Proof. intros He inputs _. cbn. by repeat split. Qed.

Lemma ui_ok_emit (bound : nat) (events : list ui_event) :
  Forall is_talk events -> ui_ok allowed (fun _ => True) bound (ui_emit events).
Proof.
  intros Hev inputs _. cbn. split; [done|]. split; [by apply Forall_talk|done].
Qed.

Lemma ui_ok_input (bound : nat) (prompt : string) :
  ui_ok allowed (fun _ => True) bound (ui_input prompt).
Proof.
  intros [|line rest] _; cbn.
  - split; [done|]. split; [by repeat constructor|apply menu_exit_eof].
  - split; [by apply suffix_cons_r|]. split; [by repeat constructor|done].
Qed.

Lemma ui_ok_weaken (Q Q' : A -> Prop) (bound : nat) (m : UI A) :
  (forall a, Q a -> Q' a) -> ui_ok allowed Q bound m -> ui_ok allowed Q' bound m.
Proof.
  intros Hq Hm inputs Hlen. destruct (Hm inputs Hlen) as (Hs & Hl & Hv).
  split; [done|]. split; [done|]. destruct (ui_value (m inputs)); auto.
Qed.

Lemma ui_ok_mono (Q : A -> Prop) (bound bound' : nat) (m : UI A) :
  (bound' <= bound)%nat -> ui_ok allowed Q bound m -> ui_ok allowed Q bound' m.
Proof. intros Hle Hm inputs Hlen. apply Hm. lia. Qed.

Lemma ui_ok_bind (Q : A -> Prop) (Q' : B -> Prop) (bound : nat)
    (m : UI A) (k : A -> UI B) :
  ui_ok allowed Q bound m -> (forall a, Q a -> ui_ok allowed Q' bound (k a)) ->
  ui_ok allowed Q' bound (ui_bind m k).
Proof.
  intros Hm Hk inputs Hlen. destruct (Hm inputs Hlen) as (Hs & Hl & Hv).
  unfold ui_bind. destruct (ui_value (m inputs)) as [e|a]; [done|].
  pose proof (suffix_length _ _ Hs).
  destruct (Hk a Hv (ui_rest (m inputs))) as (Hs' & Hl' & Hv'); [lia|].
  cbn [ui_rest ui_log ui_value]. split; [by etrans|].
  split; [by apply Forall_app|done].
Qed.

(** After a line is read, one line fewer is left. *)
Lemma ui_ok_input_bind (Q : B -> Prop) (bound : nat) (prompt : string)
    (k : string -> UI B) :
  (forall bound' line, bound = S bound' -> ui_ok allowed Q bound' (k line)) ->
  ui_ok allowed Q bound (ui_bind (ui_input prompt) k).
Proof.
  intros Hk [|line rest] Hlen; unfold ui_bind; cbn.
  - split; [done|]. split; [by repeat constructor|apply menu_exit_eof].
  - destruct bound as [|bound']; [cbn in Hlen; lia|].
    destruct (Hk bound' line eq_refl rest) as (Hs & Hl & Hv);
      [cbn in Hlen; lia|].
    split; [by apply suffix_cons_r|]. split; [by constructor|done].
Qed.

Lemma ui_ok_try (Q : A -> Prop) (bound : nat) (body handler : UI A) :
  ui_ok allowed Q bound body -> ui_ok allowed Q bound handler ->
  ui_ok allowed Q bound (ui_try body handler).
Proof.
  intros Hb Hh inputs Hlen. destruct (Hb inputs Hlen) as (Hs & Hl & Hv).
  unfold ui_try.
  destruct (ui_value (body inputs)) as [[[e|]| |]|a] eqn:E;
    try (rewrite E; by repeat split).
  pose proof (suffix_length _ _ Hs).
  destruct (Hh (ui_rest (body inputs))) as (Hs' & Hl' & Hv'); [lia|].
  cbn [ui_rest ui_log ui_value]. split; [by etrans|].
  split; [by apply Forall_app|done].
Qed.
End Rules.

Lemma ui_ok_scans {A} (allowed allowed' : string -> list Z -> Z -> Prop) (Q : A -> Prop)
    (bound : nat) (m : UI A) :
  (forall ip ports threads, allowed ip ports threads -> allowed' ip ports threads) ->
  ui_ok allowed Q bound m -> ui_ok allowed' Q bound m.
Proof.
  intros Himp Hm inputs Hlen. destruct (Hm inputs Hlen) as (Hs & Hl & Hv).
  split; [done|]. split; [|done].
  eapply Forall_impl; [exact Hl|]. intros []; cbn; auto.
Qed.

(** ** The helpers under the rules *)

Lemma ui_ok_prompt_int (allowed : string -> list Z -> Z -> Prop) (bound : nat)
    (prompt : string) (d lo hi : Z) :
  lo <= d <= hi ->
  ui_ok allowed (fun v => lo <= v <= hi) bound
    (prompt_int prompt (Some d) (Some lo) (Some hi)).
Proof.
  intros Hd inputs _.
  destruct (prompt_int_spec prompt (Some d) (Some lo) (Some hi) inputs)
    as (Hs & Hl & Hv).
  split; [done|]. split; [by apply Forall_talk|].
  destruct (ui_value (prompt_int prompt (Some d) (Some lo) (Some hi) inputs))
    as [e|v].
  - destruct Hv as [-> _]. apply menu_exit_eof.
  - destruct Hv as [[= <-]|[Hlo Hhi]]; [done|].
    specialize (Hlo lo eq_refl). specialize (Hhi hi eq_refl). lia.
Qed.

Lemma ui_ok_choose_output_filename (allowed : string -> list Z -> Z -> Prop)
    (bound : nat) (splitext : string -> string * string)
    (stamp : nat -> string) (hostname default_format : string) :
  ui_ok allowed (fun _ => True) bound
    (fun inputs =>
       choose_output_filename splitext (stamp (length inputs)) hostname
         default_format inputs).
Proof.
  intros inputs _.
  destruct (choose_output_filename_spec splitext (stamp (length inputs))
              hostname default_format inputs) as (Hs & Hl & Hv).
  split; [done|]. split; [by apply Forall_talk|].
  destruct (ui_value _) as [e|v]; [|done].
  destruct Hv as [-> _]. apply menu_exit_eof.
Qed.

Lemma ui_ok_input_host (allowed : string -> list Z -> Z -> Prop) (bound : nat)
    (gethostbyname : string -> result string) :
  ui_ok allowed
    (fun entry =>
       match entry with
       | Some (_, ip) => exists host, gethostbyname host = Ok ip
       | None => True
       end)
    bound (input_host gethostbyname).
Proof.
  intros inputs _.
  destruct (input_host_spec gethostbyname inputs) as (Hs & Hl & Hv).
  split; [done|]. split; [by apply Forall_talk|].
  destruct (ui_value _) as [e|[[host ip]|]]; [| |done].
  - destruct Hv as [-> _]. apply menu_exit_eof.
  - destruct Hv as (Hres & _). by exists host.
Qed.

Lemma ui_ok_read_timeout (allowed : string -> list Z -> Z -> Prop) (bound : nat)
    (pf : platform) :
  ui_ok allowed (fun _ => True) bound (read_timeout pf).
Proof.
  unfold read_timeout. eapply ui_ok_bind; [apply ui_ok_input|].
  intros line _. by apply ui_ok_ret.
Qed.

(** The only exception that leaves [run_scan] is the interrupt. *)
Lemma run_scan_raises_interrupt_only (w : world) (target_ip : string)
    (ports : list Z) (threads : Z) (timeout : Q) (save_path : option string)
    (e : py_raise) :
  rr_return (run_scan w target_ip ports threads timeout save_path) = inl e ->
  e = KeyboardInterrupt.
Proof.
  destruct (decide (ports = [])) as [->|Hne]; [done|].
  destruct (w_interrupt w) as [[k|k pt|j|]|] eqn:Hi.
  - rewrite run_scan_interrupted_submit with (k := k) by done. by intros [= <-].
  - by rewrite run_scan_interrupted with (k := k) (pt := pt).
  - rewrite run_scan_interrupted_after with (j := j) by done. by intros [= <-].
  - rewrite run_scan_interrupted_write by done. by intros [= <-].
  - by rewrite run_scan_complete.
Qed.

Lemma ui_ok_run_scan (allowed : string -> list Z -> Z -> Prop) (bound : nat)
    (pf : platform) (ip : string) (ports : list Z) (threads : Z) (timeout : Q)
    (out : option string) :
  allowed ip ports threads ->
  ui_ok allowed (fun _ => True) bound (ui_run_scan pf ip ports threads timeout out).
Proof.
  intros Hallowed inputs _. unfold ui_run_scan. cbn [ui_rest ui_log ui_value].
  split; [done|]. split; [by repeat constructor|].
  destruct (rr_return _) as [e|opened] eqn:E; [|done].
  apply run_scan_raises_interrupt_only in E as ->. right. by left.
Qed.

(** ** The port lists the menus hand to the engine *)

Lemma seqZ_strictly_sorted (n : nat) (a : Z) :
  StronglySorted Z.lt (seqZ a (Z.of_nat n)).
Proof.
  revert a. induction n as [|n IH]; intros a.
  - rewrite seqZ_nil by lia. constructor.
  - rewrite seqZ_cons by lia.
    replace (Z.pred (Z.of_nat (S n))) with (Z.of_nat n) by lia.
    constructor; [apply IH|]. apply Forall_seqZ. lia.
Qed.

Lemma seqZ_well_formed (a len : Z) :
  1 <= a -> a + len - 1 <= 65535 -> well_formed_ports (seqZ a len).
Proof.
  intros Ha Hb. split.
  - destruct (decide (len <= 0)) as [Hle|Hgt].
    + rewrite seqZ_nil by done. constructor.
    + replace len with (Z.of_nat (Z.to_nat len)) by lia.
      apply seqZ_strictly_sorted.
  - apply Forall_seqZ. lia.
Qed.

Lemma COMMON_PORTS_well_formed : well_formed_ports COMMON_PORTS.
Proof.
  split.
  - unfold COMMON_PORTS. repeat (constructor; [|repeat (constructor; [lia|])]);
      constructor.
  - unfold COMMON_PORTS. repeat (constructor; [lia|]). constructor.
Qed.

Lemma range_choice_well_formed (rng : string) (ports : list Z) :
  range_choice rng = RangePorts ports -> well_formed_ports ports.
Proof.
  unfold range_choice. intros H.
  repeat (case_match; simplify_eq; try done).
  apply seqZ_well_formed; lia.
Qed.

Lemma parse_ports_input_well_formed (spec : string) (ports : list Z) :
  parse_ports_input spec = Some ports -> well_formed_ports ports.
Proof.
  intros (Hs & _ & Hr)%parse_ports_input_sorted. by split.
Qed.

(** ** The menus under the rules *)

Lemma clear_screen_talk (pf : platform) : Forall is_talk (clear_screen pf).
Proof. unfold clear_screen. by repeat constructor. Qed.

Lemma print_banner_talk (pf : platform) (text font : string) :
  Forall is_talk (print_banner pf text font).
Proof.
  unfold print_banner. destruct (pf_figlet pf) as [render|];
    [destruct (render font text)|]; by repeat constructor.
Qed.

Lemma submenu_header_talk (pf : platform) (hostname ip : string) :
  Forall is_talk (submenu_header pf hostname ip).
Proof.
  unfold submenu_header.
  repeat (apply Forall_app; split);
    [apply clear_screen_talk|apply print_banner_talk|by repeat constructor].
Qed.

Lemma main_header_talk (pf : platform) : Forall is_talk (main_header pf).
Proof.
  unfold main_header.
  repeat (apply Forall_app; split);
    [apply clear_screen_talk|apply print_banner_talk|by repeat constructor].
Qed.

Lemma contact_page_talk (pf : platform) : Forall is_talk (contact_page pf).
Proof.
  unfold contact_page.
  repeat (apply Forall_app; split);
    [apply clear_screen_talk|apply print_banner_talk|by repeat constructor].
Qed.

Lemma ui_ok_launch_scan (bound : nat) (pf : platform) (hostname ip : string)
    (threads_prompt : string) (threads_default : Z) (ports : list Z) :
  1 <= threads_default <= 2000 -> well_formed_ports ports ->
  ui_ok (submenu_scan ip) (fun _ => True) bound
    (launch_scan pf hostname ip threads_prompt threads_default ports).
Proof.
  intros Hd Hports. unfold launch_scan.
  eapply ui_ok_bind; [by apply ui_ok_prompt_int|]. intros threads Hthreads.
  eapply ui_ok_bind; [apply ui_ok_read_timeout|]. intros timeout _.
  eapply ui_ok_bind; [apply ui_ok_choose_output_filename|]. intros out _.
  eapply ui_ok_bind; [by apply ui_ok_run_scan|]. intros _ _.
  eapply ui_ok_bind; [apply ui_ok_input|]. intros _ _. by apply ui_ok_ret.
Qed.

Lemma menu_exit_zero : menu_exit (SystemExit 0).
Proof. by left. Qed.

Lemma scanner_submenu_loop_ok (pf : platform) (hostname ip : string)
    (fuel : nat) :
  forall bound, (bound < fuel)%nat ->
    ui_ok (submenu_scan ip) (fun _ => True) bound
      (scanner_submenu_loop pf fuel hostname ip).
Proof.
  induction fuel as [|fuel IH]; intros bound Hb; [lia|].
  cbn [scanner_submenu_loop].
  eapply ui_ok_bind; [apply ui_ok_emit, submenu_header_talk|]. intros _ _.
  apply ui_ok_input_bind. intros bound' line ->.
  assert (ui_ok (submenu_scan ip) (fun _ : unit => True) bound'
            (scanner_submenu_loop pf fuel hostname ip)) as Hagain
    by (apply IH; lia).
  assert (ui_ok (submenu_scan ip) (fun _ : unit => True) bound'
            (_ <~ ui_input press_enter_scanner ;;
             scanner_submenu_loop pf fuel hostname ip)) as Hwait.
  { eapply ui_ok_bind; [apply ui_ok_input|]. by intros _ _. }
  repeat case_decide.
  - eapply ui_ok_bind; [apply ui_ok_input|]. intros confirm _.
    case_decide; [done|].
    eapply ui_ok_bind; [|by intros _ _].
    apply ui_ok_launch_scan; [lia|]. apply seqZ_well_formed; lia.
  - eapply ui_ok_bind; [apply ui_ok_emit; by repeat constructor|]. intros _ _.
    eapply ui_ok_bind; [|by intros _ _].
    apply ui_ok_launch_scan; [lia|apply COMMON_PORTS_well_formed].
  - eapply ui_ok_bind; [apply ui_ok_input|]. intros rng _.
    destruct (range_choice (str_strip rng)) as [| | |ports] eqn:Hrange.
    + eapply ui_ok_bind; [apply ui_ok_emit; by repeat constructor|].
      by intros _ _.
    + eapply (ui_ok_bind _ (fun _ => True)); [|by intros _ _].
      apply ui_ok_try.
      * eapply ui_ok_bind; [apply ui_ok_emit; by repeat constructor|].
        intros _ _. eapply ui_ok_bind; [apply ui_ok_input|].
        intros _ _. by apply ui_ok_ret.
      * eapply ui_ok_bind; [apply ui_ok_emit; by repeat constructor|].
        intros _ _. eapply ui_ok_bind; [apply ui_ok_input|].
        intros _ _. by apply ui_ok_ret.
    + eapply ui_ok_bind; [apply ui_ok_emit; by repeat constructor|].
      by intros _ _.
    + eapply ui_ok_bind; [|by intros _ _].
      apply ui_ok_launch_scan; [lia|]. by eapply range_choice_well_formed.
  - eapply ui_ok_bind; [apply ui_ok_input|]. intros spec _.
    destruct (parse_ports_input (str_strip spec)) as [parsed|] eqn:Hparse.
    + eapply ui_ok_bind; [|by intros _ _].
      apply ui_ok_launch_scan; [lia|]. by eapply parse_ports_input_well_formed.
    + eapply ui_ok_bind; [apply ui_ok_emit; by repeat constructor|].
      by intros _ _.
  - by apply ui_ok_ret.
  - eapply ui_ok_bind; [apply ui_ok_emit; by repeat constructor|].
    intros _ _. apply ui_ok_fail, menu_exit_zero.
  - eapply ui_ok_bind; [apply ui_ok_emit; by repeat constructor|].
    intros _ _. eapply ui_ok_bind; [apply ui_ok_input|]. by intros _ _.
Qed.

Lemma scanner_submenu_ok (pf : platform) (hostname ip : string) (bound : nat) :
  ui_ok (submenu_scan ip) (fun _ => True) bound (scanner_submenu pf hostname ip).
Proof.
  intros inputs _. unfold scanner_submenu.
  apply (scanner_submenu_loop_ok pf hostname ip (S (length inputs))
           (length inputs)); lia.
Qed.

Lemma main_menu_loop_ok (pf : platform) (fuel : nat) :
  forall bound, (bound < fuel)%nat ->
    ui_ok (program_scan pf) (fun _ => True) bound (main_menu_loop pf fuel).
Proof.
  induction fuel as [|fuel IH]; intros bound Hb; [lia|].
  cbn [main_menu_loop].
  eapply ui_ok_bind; [apply ui_ok_emit, main_header_talk|]. intros _ _.
  apply ui_ok_input_bind. intros bound' line ->.
  assert (ui_ok (program_scan pf) (fun _ : unit => True) bound'
            (main_menu_loop pf fuel)) as Hagain by (apply IH; lia).
  repeat case_decide.
  - eapply ui_ok_bind; [apply ui_ok_input_host|].
    intros [[hostname ip]|] Hentry; [|done].
    eapply ui_ok_bind; [|by intros _ _].
    eapply ui_ok_scans; [|apply scanner_submenu_ok].
    intros target ports threads (-> & Ht & Hp). by split.
  - eapply ui_ok_bind; [apply ui_ok_emit, contact_page_talk|]. intros _ _.
    eapply ui_ok_bind; [apply ui_ok_input|]. by intros _ _.
  - apply ui_ok_emit. apply Forall_app. split; [apply clear_screen_talk|].
    by repeat constructor.
  - eapply ui_ok_bind; [apply ui_ok_emit; by repeat constructor|].
    intros _ _. eapply ui_ok_bind; [apply ui_ok_input|]. by intros _ _.
Qed.

Lemma main_menu_ok (pf : platform) (bound : nat) :
  ui_ok (program_scan pf) (fun _ => True) bound (main_menu pf).
Proof.
  intros inputs _. unfold main_menu.
  apply (main_menu_loop_ok pf (S (length inputs)) (length inputs)); lia.
Qed.

(** X13.  Whatever is typed, [scanner_submenu] for [ip] scans only [ip],
    with between 1 and 2000 threads, over a strictly ascending list of
    ports between 1 and 65535; it reads its lines in order, and it ends by
    returning (option 5), by [sys.exit(0)] (option 6), by an interrupt
    that left [run_scan], or by [EOFError] at the end of the input: the
    loop always comes to an end on a finite input. *)
Theorem scanner_submenu_scans_well_formed (pf : platform)
    (hostname ip : string) (inputs : list string) :
  let r := scanner_submenu pf hostname ip inputs in
  Forall (scans_satisfy (submenu_scan ip)) (ui_log r) /\
  ui_rest r `suffix_of` inputs /\
  match ui_value r with
  | inl e =>
      e = SystemExit 0 \/ e = UiRaised KeyboardInterrupt \/
      e = UiRaised (ExceptionRaised EOFError)
  | inr _ => True
  end.
Proof.
  destruct (scanner_submenu_ok pf hostname ip (length inputs) inputs)
    as (Hs & Hl & Hv); [done|].
  cbv zeta. split; [done|]. split; [done|].
  by destruct (ui_value (scanner_submenu pf hostname ip inputs)).
Qed.

(** A session in the submenu that runs two scans: a range, then a list. *)
Example scanner_submenu_session :
  let r := scanner_submenu demo_platform "localhost" "127.0.0.1"
             ["3"; "5-2"; "x"; "3"; "1-3"; "7"; "0.5"; "out"; "2"; "";
              "4"; "80,22"; ""; ""; "n"; ""; "5"; "left"] in
  scans_of (ui_log r) = [("127.0.0.1", [1; 2; 3], 7); ("127.0.0.1", [22; 80], 100)] /\
  ui_value r = inr tt /\ ui_rest r = ["left"].
Proof. vm_compute. done. Qed.

Lemma str_rstrip_idem (s : string) : str_rstrip (str_rstrip s) = str_rstrip s.
Proof.
  induction s as [|c r IH]; [done|]. cbn [str_rstrip].
  destruct (str_rstrip r) as [|c' r'] eqn:E.
  - destruct (py_isspace c) eqn:Ec; [done|]. cbn [str_rstrip]. by rewrite Ec.
  - change (str_rstrip (String c (String c' r')))
      with (match str_rstrip (String c' r') with
            | EmptyString =>
                if py_isspace c then EmptyString else String c EmptyString
            | String c0 r0 => String c (String c0 r0)
            end).
    by rewrite IH.
Qed.

Lemma str_lstrip_head (s : string) :
  match str_lstrip s with
  | String c _ => py_isspace c = false
  | EmptyString => True
  end.
Proof.
  induction s as [|c r IH]; [done|]. cbn [str_lstrip].
  by destruct (py_isspace c) eqn:Ec.
Qed.

Lemma str_rstrip_head (c : ascii) (r : string) :
  py_isspace c = false -> exists r', str_rstrip (String c r) = String c r'.
Proof.
  intros Hc. cbn [str_rstrip]. destruct (str_rstrip r); rewrite ?Hc; eauto.
Qed.

Lemma str_strip_idem (s : string) : str_strip (str_strip s) = str_strip s.
Proof.
  unfold str_strip. pose proof (str_lstrip_head s) as Hhead.
  destruct (str_lstrip s) as [|c r]; [done|].
  destruct (str_rstrip_head c r Hhead) as [r' E]. rewrite E.
  cbn [str_lstrip]. rewrite Hhead, <- E. apply str_rstrip_idem.
Qed.

Lemma str_split_absent (sep : ascii) (s : string) :
  str_contains sep s = false -> str_split sep s = [s].
Proof.
  induction s as [|c r IH]; [done|]. cbn [str_contains str_split].
  case_decide; [done|]. intros Hr. by rewrite IH.
Qed.

Lemma sorted_add_range (a b : Z) : sorted (add_range a b ∅) = seqZ a (b + 1 - a).
Proof.
  apply strictly_sorted_ext; [apply sorted_strict| |].
  - destruct (decide (b + 1 - a <= 0)) as [Hle|Hgt].
    + rewrite seqZ_nil by done. constructor.
    + replace (b + 1 - a) with (Z.of_nat (Z.to_nat (b + 1 - a))) by lia.
      apply seqZ_strictly_sorted.
  - intros p. rewrite elem_of_sorted, elem_of_add_range, elem_of_seqZ.
    split; [intros [H|H]; [by apply not_elem_of_empty in H|lia]|right; lia].
Qed.

(** X14.  Options 3 and 4 of the submenu read a single range alike: on
    a stripped entry with a hyphen and no comma, [parse_ports_input]
    (option 4) returns the very list option 3 scans, and returns [None]
    whenever option 3 refuses the entry. *)
Theorem range_choice_agrees_with_parser (line : string) :
  str_contains "," (str_strip line) = false ->
  str_contains "-" (str_strip line) = true ->
  parse_ports_input (str_strip line) =
    match range_choice (str_strip line) with
    | RangePorts ports => Some ports
    | _ => None
    end.
Proof.
  intros Hcomma Hhyphen.
  assert (str_strip line <> EmptyString) as Hne.
  { intros E. by rewrite E in Hhyphen. }
  unfold parse_ports_input. rewrite decide_False by done.
  rewrite str_split_absent by done. cbn [parse_parts].
  unfold parse_part, range_choice. rewrite str_strip_idem.
  rewrite decide_False by done. rewrite Hhyphen. cbn [negb].
  destruct (str_split1 "-" (str_strip line)) as [|a_str [|b_str [|]]];
    try done.
  destruct (py_int a_str) as [a|]; [|done].
  destruct (py_int b_str) as [b|]; [|done].
  destruct ((a <? 1) || (b >? 65535) || (a >? b)); [done|].
  cbn [fmap option_fmap option_map]. by rewrite sorted_add_range.
Qed.

(** X14 at the entry [" 20-25 "]. *)
Lemma range_choice_agrees_with_parser_witness :
  str_contains "," (str_strip " 20-25 ") = false /\
  str_contains "-" (str_strip " 20-25 ") = true /\
  parse_ports_input (str_strip " 20-25 ") =
    match range_choice (str_strip " 20-25 ") with
    | RangePorts ports => Some ports
    | _ => None
    end.
Proof.
  split; [reflexivity|]. split; [reflexivity|].
  apply (range_choice_agrees_with_parser " 20-25 "); reflexivity.
Defined.

(** X15.  Whatever is typed, every scan the program runs is aimed at an
    address that [socket.gethostbyname] returned for some host name, with
    between 1 and 2000 threads, over a strictly ascending list of ports
    between 1 and 65535. *)
Theorem program_scans_resolved_hosts (pf : platform) (inputs : list string) :
  Forall (scans_satisfy (program_scan pf)) (ui_log (main pf inputs)).
Proof.
  destruct (main_menu_ok pf (length inputs) inputs) as (_ & Hl & _); [done|].
  unfold main.
  destruct (ui_value (main_menu pf inputs)) as [[[e|]| |]|a]; try done.
  cbn [ui_log]. apply Forall_app. split; [done|]. by repeat constructor.
Qed.

(** X16.  On a console that delivers lines and then the end of the input,
    the program ends in one of three ways: [main_menu] returns (option 3),
    the exit status is 0 ([sys.exit(0)] from option 6, or an interrupt out
    of a scan, which the [__main__] block turns into the notice and status
    0), or [EOFError] at the end of the input.  [KeyboardInterrupt] never
    leaves it, and the menu loops end on every finite input. *)
Theorem main_ends_cleanly (pf : platform) (inputs : list string) :
  let r := main pf inputs in
  ui_rest r `suffix_of` inputs /\
  (ui_value r = inr tt \/ ui_value r = inl (SystemExit 0) \/
   ui_value r = inl (UiRaised (ExceptionRaised EOFError))) /\
  (ui_value (main_menu pf inputs) = inl (UiRaised KeyboardInterrupt) ->
   ui_value r = inl (SystemExit 0) /\
   last (ui_log r) = Some (Said (nl +:+ "Interrupted by user. Exiting."))).
Proof.
  destruct (main_menu_ok pf (length inputs) inputs) as (Hs & _ & Hv); [done|].
  cbv zeta. unfold main.
  destruct (ui_value (main_menu pf inputs)) as [e|u] eqn:E; [|destruct u].
  - destruct Hv as [-> | [-> | ->]]; cbn [ui_rest ui_value ui_log].
    + rewrite E. split; [done|]. split; [by right; left|done].
    + split; [done|]. split; [by right; left|]. intros _. split; [done|].
      by rewrite last_snoc.
    + rewrite E. split; [done|]. split; [by right; right|done].
  - rewrite E. split; [done|]. split; [by left|done].
Qed.

(** A session of the program: a host that does not resolve, then one that
    does, a scan of two ports, and the way out through both menus. *)
Example main_session :
  let r := main demo_platform
             ["1"; "nowhere"; "localhost"; "4"; "22,80"; ""; ""; "n"; "";
              "5"; "3"] in
  scans_of (ui_log r) = [("127.0.0.1", [22; 80], 100)] /\
  ui_value r = inr tt /\ ui_rest r = [].
Proof. vm_compute. done. Qed.

(** An interrupt while the probes are being submitted leaves [run_scan]
    and both menus; the program prints the notice and exits with status 0. *)
Example main_session_interrupted :
  let pf := {| pf_os_name := "posix"; pf_figlet := None; pf_float := demo_float;
               pf_splitext := posix_splitext;
               pf_strftime := fun _ => "20251003_120000";
               pf_gethostbyname := demo_resolver;
               pf_scan_world := fun _ =>
                 demo_world demo_net [] (Some (DuringSubmit 1)) |} in
  let r := main pf ["1"; "localhost"; "2"; ""; ""; "n"; "never read"] in
  ui_value (main_menu pf ["1"; "localhost"; "2"; ""; ""; "n"; "never read"])
    = inl (UiRaised KeyboardInterrupt) /\
  ui_value r = inl (SystemExit 0) /\ ui_rest r = ["never read"] /\
  last (ui_log r) = Some (Said (nl +:+ "Interrupted by user. Exiting.")).
Proof. vm_compute. done. Qed.
